(** * qwerty_othello: the board engine and the negamax search

    A shallow embedding of [Board] (board.cpp) and [Player] (player.cpp):
    the two 64-bit sets of a board, move legality and application, the
    counts, the evaluation heuristic, and the alpha-beta search that the
    player runs on heap-allocated boards. *)

From Stdlib Require Import ZArith Lia List Bool Ascii.
From stdpp Require Import gmap.
Import ListNotations.

Local Open Scope Z_scope.

(** ** common.hpp *)

Inductive Side := WHITE | BLACK.

Inductive Position := CORNER | EDGE | NEXT_TO_CORNER | DIAGONAL_TO_CORNER | OTHER.

(** [class Move]: two public [int] fields.  A [Move *] is an
    [option Move]; [nullptr] is [None]. *)
Record Move := mkMove { getX : Z; getY : Z }.

Definition BOARD_SIZE : Z := 8.

Definition Position_eqb (p q : Position) : bool :=
  match p, q with
  | CORNER, CORNER | EDGE, EDGE | NEXT_TO_CORNER, NEXT_TO_CORNER
  | DIAGONAL_TO_CORNER, DIAGONAL_TO_CORNER | OTHER, OTHER => true
  | _, _ => false
  end.

(** [side == BLACK] *)
Definition isBLACK (side : Side) : bool :=
  match side with BLACK => true | WHITE => false end.

(** [(side == BLACK) ? WHITE : BLACK], the expression every method uses
    for the opponent. *)
Definition otherSide (side : Side) : Side :=
  match side with BLACK => WHITE | WHITE => BLACK end.

(** ** std::bitset<64>

    A bit set is the integer whose binary digits are its bits.  The
    positions a [bitset<64>] has are 0..63: [operator[]] outside them is
    undefined and [set] outside them throws, so the board only means
    something for positions in that range; [count] counts exactly those. *)
Module Bitset.

Definition t := Z.

Definition reset : t := 0.

(** [s[pos]] *)
Definition test (s : t) (pos : Z) : bool := Z.testbit s pos.

(** [s.set(pos, val)]; [s.set(pos)] is [set s pos true]. *)
Definition set (s : t) (pos : Z) (val : bool) : t :=
  if val then Z.setbit s pos else Z.clearbit s pos.

Definition positions : list Z := map Z.of_nat (seq 0 64).

(** [s.count()] *)
Definition count (s : t) : Z :=
  fold_right (fun pos acc => Z.b2z (test s pos) + acc) 0 positions.

Definition inRange (pos : Z) : Prop := 0 <= pos < 64.

End Bitset.

(** ** The 32-bit [int] of the search scores

    Unary minus on [int]: the comment in [Player::doMove] relies on the
    two's-complement result ([-INT_MIN] is [INT_MIN] again), which is what
    [neg32] computes. *)
Definition INT_MIN : Z := - 2 ^ 31.
Definition INT_MAX : Z := 2 ^ 31 - 1.
Definition wrap32 (z : Z) : Z := (z + 2 ^ 31) mod 2 ^ 32 - 2 ^ 31.
Definition neg32 (z : Z) : Z := wrap32 (- z).

(** ** board.cpp *)
Module Board.

(** Modelled from the spec: the class declaration of [Board] (board.hpp)
    is not part of the sources; its two data members are the bit sets
    [taken] (the spec's occupied set) and [black] (the colour set) that
    every method of board.cpp reads and writes. *)
Record t := mk { taken : Bitset.t; black : Bitset.t }.

(** [Board::Board()] *)
Definition new : t :=
  let taken := Bitset.reset in
  let black := Bitset.reset in
  let taken := Bitset.set taken (3 + 8 * 3) true in
  let taken := Bitset.set taken (3 + 8 * 4) true in
  let taken := Bitset.set taken (4 + 8 * 3) true in
  let taken := Bitset.set taken (4 + 8 * 4) true in
  let black := Bitset.set black (4 + 8 * 3) true in
  let black := Bitset.set black (3 + 8 * 4) true in
  mk taken black.

(** The value [Board::copy] gives to the board it allocates: a fresh
    [Board()] whose two members are then overwritten. *)
Definition copy (b : t) : t :=
  let newBoard := new in
  let newBoard := mk (taken newBoard) (black b) in
  let newBoard := mk (taken b) (black newBoard) in
  newBoard.

Definition occupied (b : t) (x y : Z) : bool :=
  Bitset.test (taken b) (x + 8 * y).

Definition get (b : t) (side : Side) (x y : Z) : bool :=
  occupied b x y && Bool.eqb (Bitset.test (black b) (x + 8 * y)) (isBLACK side).

Definition set (b : t) (side : Side) (x y : Z) : t :=
  let taken' := Bitset.set (taken b) (x + 8 * y) true in
  mk taken' (Bitset.set (black b) (x + 8 * y) (isBLACK side)).

Definition onBoard (x y : Z) : bool :=
  (0 <=? x) && (x <? 8) && (0 <=? y) && (y <? 8).

(** The eight directions in the order of the two nested [for] loops
    ([dx] outside, [dy] inside, the null direction skipped). *)
Definition directions : list (Z * Z) :=
  [(-1, -1); (-1, 0); (-1, 1); (0, -1); (0, 1); (1, -1); (1, 0); (1, 1)].

(** The squares in the order of [for i] / [for j] with [Move(i, j)]. *)
Definition squares : list (Z * Z) :=
  flat_map (fun i => map (fun j => (Z.of_nat i, Z.of_nat j)) (seq 0 8)) (seq 0 8).

(** [while (onBoard(x, y) && get(other, x, y)) { x += dx; y += dy; }]:
    the square on which the loop stops.  The loop leaves the board
    after at most eight steps ([skip_fuel_enough] below), which is the
    fuel every caller gives. *)
Fixpoint skip (fuel : nat) (b : t) (other : Side) (dx dy x y : Z) : Z * Z :=
  match fuel with
  | O => (x, y)
  | S fuel' =>
      if onBoard x y && get b other x y
      then skip fuel' b other dx dy (x + dx) (y + dy)
      else (x, y)
  end.

(** The body of the direction loop of [checkMove]: is there a capture
    from (X, Y) in direction (dx, dy)? *)
Definition captures (b : t) (side : Side) (X Y : Z) (d : Z * Z) : bool :=
  let '(dx, dy) := d in
  let other := otherSide side in
  let x := X + dx in
  let y := Y + dy in
  if onBoard x y && get b other x y then
    let '(x, y) := skip 8 b other dx dy (x + dx) (y + dy) in
    onBoard x y && get b side x y
  else false.

(** [checkMove] for a move that is not [nullptr]. *)
Definition checkSquare (b : t) (X Y : Z) (side : Side) : bool :=
  if occupied b X Y then false
  else existsb (captures b side X Y) directions.

Definition hasMoves (b : t) (side : Side) : bool :=
  existsb (fun ij => checkSquare b (fst ij) (snd ij) side) squares.

Definition checkMove (b : t) (m : option Move) (side : Side) : bool :=
  match m with
  | None => negb (hasMoves b side)
  | Some m => checkSquare b (getX m) (getY m) side
  end.

Definition isDone (b : t) : bool :=
  negb (hasMoves b BLACK || hasMoves b WHITE).

(** The inner [while] of [doMove]: turn the run of [other] stones that
    starts at (x, y) over to [side]. *)
Fixpoint flip (fuel : nat) (b : t) (side other : Side) (dx dy x y : Z) : t :=
  match fuel with
  | O => b
  | S fuel' =>
      if onBoard x y && get b other x y
      then flip fuel' (set b side x y) side other dx dy (x + dx) (y + dy)
      else b
  end.

(** The body of the direction loop of [doMove]. *)
Definition flipDirection (side : Side) (X Y : Z) (b : t) (d : Z * Z) : t :=
  let '(dx, dy) := d in
  let other := otherSide side in
  let '(x, y) := skip 8 b other dx dy (X + dx) (Y + dy) in
  if onBoard x y && get b side x y
  then flip 8 b side other dx dy (X + dx) (Y + dy)
  else b.

Definition doMove (b : t) (m : option Move) (side : Side) : t :=
  match m with
  | None => b
  | Some mv =>
      if negb (checkMove b m side) then b
      else
        let X := getX mv in
        let Y := getY mv in
        let b := fold_left (flipDirection side X Y) directions b in
        set b side X Y
  end.

Definition countBlack (b : t) : Z := Bitset.count (black b).

Definition countWhite (b : t) : Z := Bitset.count (taken b) - Bitset.count (black b).

Definition count (b : t) (side : Side) : Z :=
  if isBLACK side then countBlack b else countWhite b.

Definition getSquarePosition (x y : Z) : Position :=
  let isEdge := (x =? 0) || (x =? BOARD_SIZE - 1) || (y =? 0) || (y =? BOARD_SIZE - 1) in
  let isCorner :=
    (x =? 0) && (y =? 0) ||
    (x =? 0) && (y =? BOARD_SIZE - 1) ||
    (x =? BOARD_SIZE - 1) && (y =? 0) ||
    (x =? BOARD_SIZE - 1) && (y =? BOARD_SIZE - 1) in
  let isDiagonalToCorner :=
    (x =? 1) && (y =? 1) ||
    (x =? 1) && (y =? BOARD_SIZE - 2) ||
    (x =? BOARD_SIZE - 2) && (y =? 1) ||
    (x =? BOARD_SIZE - 2) && (y =? BOARD_SIZE - 2) in
  let isNextToCorner :=
    (x =? 1) && (y =? 0) ||
    (x =? 0) && (y =? 1) ||
    (x =? 0) && (y =? BOARD_SIZE - 2) ||
    (x =? 1) && (y =? BOARD_SIZE - 1) ||
    (x =? BOARD_SIZE - 2) && (y =? BOARD_SIZE - 1) ||
    (x =? BOARD_SIZE - 1) && (y =? BOARD_SIZE - 2) ||
    (x =? BOARD_SIZE - 2) && (y =? 0) ||
    (x =? BOARD_SIZE - 1) && (y =? 1) in
  if isCorner then CORNER
  else if isDiagonalToCorner then DIAGONAL_TO_CORNER
  else if isNextToCorner then NEXT_TO_CORNER
  else if isEdge then EDGE
  else OTHER.

Definition CORNER_WEIGHT : Z := 3.
Definition EDGE_WEIGHT : Z := 2.
Definition NEXT_TO_CORNER_WEIGHT : Z := -2.
Definition DIAGONAL_TO_CORNER_WEIGHT : Z := -3.
Definition OTHER_WEIGHT : Z := 1.

(** What one square adds to [totalScore] in the weighted branch of
    [getScore]. *)
Definition squareScore (b : t) (side : Side) (i j : Z) : Z :=
  if occupied b i j then
    let pos := getSquarePosition i j in
    let additionalScore :=
      if Position_eqb pos CORNER then CORNER_WEIGHT
      else if Position_eqb pos DIAGONAL_TO_CORNER then DIAGONAL_TO_CORNER_WEIGHT
      else if Position_eqb pos NEXT_TO_CORNER then NEXT_TO_CORNER_WEIGHT
      else if Position_eqb pos EDGE then EDGE_WEIGHT
      else if Position_eqb pos OTHER then OTHER_WEIGHT
      else 0 in
    if negb (get b side i j) then - additionalScore else additionalScore
  else 0.

(** The sums stay far inside [int] (at most 64 squares of weight at most
    3), so they are plain integers here. *)
Definition getScore (b : t) (side : Side) (testingMinimax : bool) : Z :=
  if testingMinimax then
    if isBLACK side then countBlack b - countWhite b
    else countWhite b - countBlack b
  else
    fold_left (fun totalScore ij => totalScore + squareScore b side (fst ij) (snd ij))
              squares 0.

(** [setBoard(char data[])]: [data] is read at 0..63; a shorter array
    is read as blanks here (in C++ it must not be shorter). *)
Definition setBoard (b : t) (data : list ascii) : t :=
  fold_left
    (fun (tb : t) (i : Z) =>
       let c := nth (Z.to_nat i) data " "%char in
       let tb :=
         if Ascii.eqb c "b"%char
         then mk (Bitset.set (taken tb) i true) (Bitset.set (black tb) i true)
         else tb in
       if Ascii.eqb c "w"%char
       then mk (Bitset.set (taken tb) i true) (black tb)
       else tb)
    Bitset.positions (mk Bitset.reset Bitset.reset).

End Board.

(** ** Boards on the heap

    [Player] reaches its boards through [Board *]: the board it owns
    ([this->board]), the board the search is called on, and the copies
    the search allocates and deletes.  The heap maps the address of each
    live [Board] object to its value; a computation takes the heap and
    gives back a result and the new heap, or nothing when it dereferences
    an address that holds no board. *)
Module Heap.

Definition loc := positive.

Abbreviation heap := (gmap loc Board.t).

Definition M (A : Type) : Type := heap -> option (A * heap).

Definition ret {A} (a : A) : M A := fun h => Some (a, h).

Definition bind {A B} (m : M A) (k : A -> M B) : M B :=
  fun h => match m h with
           | Some (a, h') => k a h'
           | None => None
           end.

Definition load (l : loc) : M Board.t :=
  fun h => match h !! l with
           | Some b => Some (b, h)
           | None => None
           end.

Definition store (l : loc) (b : Board.t) : M unit :=
  fun h => match h !! l with
           | Some _ => Some (tt, <[l := b]> h)
           | None => None
           end.

(** [new Board(...)]: an address that holds no board yet. *)
Definition alloc (b : Board.t) : M loc :=
  fun h => let l := fresh (dom h) in Some (l, <[l := b]> h).

(** [delete p] *)
Definition free (l : loc) : M unit :=
  fun h => match h !! l with
           | Some _ => Some (tt, delete l h)
           | None => None
           end.

(** Every board that was live in [h] is live with the same value in
    [h']. *)
Definition preserved (h h' : heap) : Prop :=
  forall l, is_Some (h !! l) -> h' !! l = h !! l.

End Heap.

Import Heap.

#[global] Instance M_ret : MRet M := @Heap.ret.
#[global] Instance M_bind : MBind M := fun A B k m => Heap.bind m k.

(** The methods of [Board] called through a pointer. *)
Module BoardPtr.

(** [this->copy()] *)
Definition copy (this : loc) : M loc :=
  newBoard ← alloc Board.new;
  b ← load this;
  store newBoard (Board.copy b);;
  mret newBoard.

(** [this->hasMoves(side)] *)
Definition hasMoves (this : loc) (side : Side) : M bool :=
  b ← load this; mret (Board.hasMoves b side).

(** [this->checkMove(m, side)] *)
Definition checkMove (this : loc) (m : option Move) (side : Side) : M bool :=
  b ← load this; mret (Board.checkMove b m side).

(** [this->getScore(side, testingMinimax)] *)
Definition getScore (this : loc) (side : Side) (testingMinimax : bool) : M Z :=
  b ← load this; mret (Board.getScore b side testingMinimax).

(** [this->count(side)] *)
Definition count (this : loc) (side : Side) : M Z :=
  b ← load this; mret (Board.count b side).

(** [this->doMove(m, side)] *)
Definition doMove (this : loc) (m : option Move) (side : Side) : M unit :=
  b ← load this; store this (Board.doMove b m side).

(** [this->set(side, x, y)] *)
Definition set (this : loc) (side : Side) (x y : Z) : M unit :=
  b ← load this; store this (Board.set b side x y).

(** [this->setBoard(data)] *)
Definition setBoard (this : loc) (data : list ascii) : M unit :=
  b ← load this; store this (Board.setBoard b data).

End BoardPtr.

(** ** player.cpp (the negamax player) *)
Module Player.

Record t := mk { board : loc; side : Side; testingMinimax : bool }.

(** [Player::Player(side)] *)
Definition new (side : Side) : M t :=
  b ← alloc Board.new; mret (mk b side false).

(** The two nested [for] loops of [negamax] over the squares [sqs] still
    to visit, with the running [alpha] and [moveMade].  [child] is the
    recursive call [negamax(childBoard, oppositeSide, depth - 1, -beta,
    -alpha)] as a function of [childBoard] and the running [alpha]. *)
Fixpoint scan (this : t) (playingSide : Side) (beta : Z)
    (child : loc -> Z -> M (Z * option Move))
    (sqs : list (Z * Z)) (alpha : Z) (moveMade : option Move)
    : M (Z * option Move) :=
  match sqs with
  | [] => mret (alpha, moveMade)
  | (i, j) :: rest =>
      let testMove := mkMove i j in
      valid ← BoardPtr.checkMove (board this) (Some testMove) playingSide;
      if valid : bool then
        childBoard ← BoardPtr.copy (board this);
        BoardPtr.doMove childBoard (Some testMove) playingSide;;
        childResults ← child childBoard alpha;
        let boardScore := neg32 (fst childResults) in
        let '(alpha, moveMade) :=
          if boardScore >? alpha then (boardScore, Some (mkMove i j))
          else (alpha, moveMade) in
        if boardScore >? beta then mret (beta, Some (mkMove i j))
        else
          free childBoard;;
          scan this playingSide beta child rest alpha moveMade
      else scan this playingSide beta child rest alpha moveMade
  end.

(** [Player::negamax].  [depth] is the number of plies left; the only
    caller passes 7, and a negative [int] would never meet the
    [depth == 0] test. *)
Fixpoint negamax (this : t) (board : loc) (playingSide : Side) (depth : nat)
    (alpha beta : Z) {struct depth} : M (Z * option Move) :=
  match depth with
  | O =>
      score ← BoardPtr.getScore board (side this) true;
      mret (score, None)
  | S depth' =>
      moves ← BoardPtr.hasMoves board playingSide;
      if negb moves then
        score ← BoardPtr.getScore board (side this) true;
        mret (score, None)
      else
        let oppositeSide :=
          match playingSide with WHITE => BLACK | BLACK => WHITE end in
        scan this playingSide beta
          (fun childBoard alpha =>
             negamax this childBoard oppositeSide depth' (neg32 beta) (neg32 alpha))
          Board.squares alpha None
  end.

(** The recursive call inside the loop of [negamax], as [scan] takes it. *)
Definition recurse (this : t) (playingSide : Side) (depth' : nat) (beta : Z)
    : loc -> Z -> M (Z * option Move) :=
  fun childBoard alpha =>
    negamax this childBoard
      match playingSide with WHITE => BLACK | BLACK => WHITE end
      depth' (neg32 beta) (neg32 alpha).

(** [Player::doMove] *)
Definition doMove (this : t) (opponentsMove : option Move) (msLeft : Z)
    : M (option Move) :=
  match opponentsMove with
  | Some _ => BoardPtr.doMove (board this) opponentsMove (otherSide (side this))
  | None => mret tt
  end;;
  results ← negamax this (board this) (side this) 7 (INT_MIN + 1) INT_MAX;
  let nextMove := snd results in
  match nextMove with
  | Some _ => BoardPtr.doMove (board this) nextMove (side this)
  | None => mret tt
  end;;
  mret nextMove.

End Player.

(** ** player.cpp (the minimax player)

    The earlier [Player]: the same three members, [doMove] searching two
    plies with [minimax]. *)
Module Minimax.

(** One of the two loops of [minimax] over the squares [sqs] still to
    visit: the loop of the maximizing player with [better] the test
    [boardScore > bestValue], the loop of the minimizing player with
    [boardScore < lowestValue]; the two are the same otherwise.  [child]
    is the recursive call as a function of [childBoard]. *)
Fixpoint scanBest (better : Z -> Z -> bool) (this : Player.t) (playingSide : Side)
    (child : loc -> M (Z * option Move))
    (sqs : list (Z * Z)) (bestValue : Z) (moveMade : option Move)
    : M (Z * option Move) :=
  match sqs with
  | [] => mret (bestValue, moveMade)
  | (i, j) :: rest =>
      let testMove := mkMove i j in
      valid ← BoardPtr.checkMove (Player.board this) (Some testMove) playingSide;
      if valid : bool then
        childBoard ← BoardPtr.copy (Player.board this);
        BoardPtr.doMove childBoard (Some testMove) playingSide;;
        childResults ← child childBoard;
        let boardScore := fst childResults in
        let '(bestValue, moveMade) :=
          match moveMade with
          | None => (boardScore, Some (mkMove i j))
          | Some _ =>
              if better boardScore bestValue then (boardScore, Some (mkMove i j))
              else (bestValue, moveMade)
          end in
        free childBoard;;
        scanBest better this playingSide child rest bestValue moveMade
      else scanBest better this playingSide child rest bestValue moveMade
  end.

(** [Player::minimax] of player.cpp, [depth] the number of plies left. *)
Fixpoint minimax (this : Player.t) (board : loc) (depth : nat)
    (maximizingPlayer : bool) {struct depth} : M (Z * option Move) :=
  let playingSide :=
    if maximizingPlayer then Player.side this else otherSide (Player.side this) in
  match depth with
  | O =>
      score ← BoardPtr.getScore board (Player.side this) (Player.testingMinimax this);
      mret (score, None)
  | S depth' =>
      moves ← BoardPtr.hasMoves board playingSide;
      if negb moves then
        score ← BoardPtr.getScore board (Player.side this) (Player.testingMinimax this);
        mret (score, None)
      else if maximizingPlayer then
        scanBest Z.gtb this playingSide
          (fun childBoard => minimax this childBoard depth' false)
          Board.squares 0 None
      else
        scanBest Z.ltb this playingSide
          (fun childBoard => minimax this childBoard depth' true)
          Board.squares 0 None
  end.

(** [Player::doMove] of player.cpp *)
Definition doMove (this : Player.t) (opponentsMove : option Move) (msLeft : Z)
    : M (option Move) :=
  match opponentsMove with
  | Some _ =>
      BoardPtr.doMove (Player.board this) opponentsMove (otherSide (Player.side this))
  | None => mret tt
  end;;
  results ← minimax this (Player.board this) 2 true;
  let nextMove := snd results in
  match nextMove with
  | Some _ => BoardPtr.doMove (Player.board this) nextMove (Player.side this)
  | None => mret tt
  end;;
  mret nextMove.

End Minimax.

(** * Vocabulary of the statements *)

(** The number of positions of [l] that are set in [s]; [Bitset.count] is
    [total] over the 64 positions. *)
Definition total (s : Bitset.t) (l : list Z) : Z :=
  fold_right (fun pos acc => Z.b2z (Bitset.test s pos) + acc) 0 l.

(** Case analysis on every integer comparison of the goal. *)
Ltac split_eqb :=
  repeat match goal with
         | |- context [?a =? ?b] => destruct (Z.eqb_spec a b)
         end.

(** A coordinate matters to the classification only through which of
    0, 1, 6, 7 it is, if any. *)
Ltac coordinate_cases x :=
  let H := fresh in
  assert (H : x = 0 \/ x = 1 \/ x = 6 \/ x = 7 \/
              (x <> 0 /\ x <> 1 /\ x <> 6 /\ x <> 7)) by lia;
  destruct H as [-> | [-> | [-> | [-> | (? & ? & ? & ?)]]]].

(** Settle the comparisons that the hypotheses already decide. *)
Ltac decide_eqb :=
  repeat match goal with
         | H : ?a <> ?b |- context [?a =? ?b] => rewrite (proj2 (Z.eqb_neq a b) H)
         end;
  cbn [Z.eqb Pos.eqb andb orb].

(** The squares of the board that [getSquarePosition] puts in class [p]. *)
Definition squaresOfClass (p : Position) : list (Z * Z) :=
  List.filter (fun ij => Position_eqb (Board.getSquarePosition (fst ij) (snd ij)) p)
         Board.squares.

(** How many squares of the board lie ahead of (x, y), itself included,
    going in direction (dx, dy). *)
Definition ahead (dx dy x y : Z) : Z :=
  if dx =? 1 then 8 - x
  else if dx =? -1 then x + 1
  else if dy =? 1 then 8 - y
  else y + 1.

(** By how much [b'] has more stones of [side]'s colour bit than [b]:
    the growth of [black] for BLACK, its shrinking for WHITE. *)
Definition gain (side : Side) (b b' : Board.t) : Z :=
  if isBLACK side then Board.countBlack b' - Board.countBlack b
  else Board.countBlack b - Board.countBlack b'.

(** [black] has no bit outside [taken]. *)
Definition blackWithinTaken (b : Board.t) : Prop :=
  Z.ldiff (Board.black b) (Board.taken b) = 0.

(** The boards the class can hold: the one its constructor builds, and
    what its mutators and [copy] make of a board it can hold. *)
Inductive reachable : Board.t -> Prop :=
| reachable_new : reachable Board.new
| reachable_set b side x y : reachable b -> reachable (Board.set b side x y)
| reachable_doMove b m side : reachable b -> reachable (Board.doMove b m side)
| reachable_setBoard b data : reachable b -> reachable (Board.setBoard b data)
| reachable_copy b : reachable b -> reachable (Board.copy b).

(** What a caller can do to a board it holds: the three mutators of the
    class. *)
Inductive mutation :=
| MutDoMove (m : option Move) (side : Side)
| MutSet (side : Side) (x y : Z)
| MutSetBoard (data : list ascii).

(** The value of the board after the mutation. *)
Definition mutated (b : Board.t) (mu : mutation) : Board.t :=
  match mu with
  | MutDoMove m side => Board.doMove b m side
  | MutSet side x y => Board.set b side x y
  | MutSetBoard data => Board.setBoard b data
  end.

(** The mutation as the method call on the board at [this]. *)
Definition mutate (this : loc) (mu : mutation) : M unit :=
  match mu with
  | MutDoMove m side => BoardPtr.doMove this m side
  | MutSet side x y => BoardPtr.set this side x y
  | MutSetBoard data => BoardPtr.setBoard this data
  end.

(** A sequence of such calls on the same board. *)
Fixpoint mutateAll (this : loc) (mus : list mutation) : M unit :=
  match mus with
  | [] => mret tt
  | mu :: rest => mutate this mu ≫= fun _ => mutateAll this rest
  end.

(** Play the moves in order from [b], each for the side named with it;
    none if one of them is not legal when its turn comes. *)
Fixpoint playLegal (b : Board.t) (ms : list (Side * Move)) : option Board.t :=
  match ms with
  | [] => Some b
  | (side, m) :: rest =>
      if Board.checkMove b (Some m) side
      then playLegal (Board.doMove b (Some m) side) rest
      else None
  end.

(** The player of the examples: BLACK, its board at address 1. *)
Definition blackPlayer : Player.t := Player.mk 1%positive BLACK false.

(** The opening position after BLACK has played (4, 5). *)
Definition afterOneMove : Board.t :=
  Board.doMove Board.new (Some (mkMove 4 5)) BLACK.

(** The opening position after (2, 3), (2, 2), (2, 1), (1, 1), BLACK
    moving first: WHITE then holds the square diagonal to a corner. *)
Definition afterFourMoves : Board.t :=
  Board.doMove
    (Board.doMove
       (Board.doMove
          (Board.doMove Board.new (Some (mkMove 2 3)) BLACK)
          (Some (mkMove 2 2)) WHITE)
       (Some (mkMove 2 1)) BLACK)
    (Some (mkMove 1 1)) WHITE.

(** The [k] squares from (x, y) on in direction (dx, dy) are all on the
    board and hold stones of [other]. *)
Definition run (b : Board.t) (other : Side) (dx dy x y k : Z) : Prop :=
  forall i, 0 <= i < k ->
    Board.onBoard (x + i * dx) (y + i * dy) = true /\
    Board.get b other (x + i * dx) (y + i * dy) = true.

(** From (X, Y) in direction (dx, dy): [k] stones of the other side, one
    at least, then a stone of [side], all on the board. *)
Definition brackets (b : Board.t) (side : Side) (X Y dx dy k : Z) : Prop :=
  1 <= k /\
  run b (otherSide side) dx dy (X + dx) (Y + dy) k /\
  Board.onBoard (X + (k + 1) * dx) (Y + (k + 1) * dy) = true /\
  Board.get b side (X + (k + 1) * dx) (Y + (k + 1) * dy) = true.

(** (x, y) is one of the stones bracketed from (X, Y) in one of the
    directions [ds]. *)
Definition capturedIn (ds : list (Z * Z)) (b : Board.t) (side : Side)
    (X Y x y : Z) : Prop :=
  exists dx dy k i,
    In (dx, dy) ds /\ brackets b side X Y dx dy k /\
    1 <= i <= k /\ x = X + i * dx /\ y = Y + i * dy.

(** (x, y) is one of the stones a move of [side] on (X, Y) brackets. *)
Definition captured (b : Board.t) (side : Side) (X Y x y : Z) : Prop :=
  capturedIn Board.directions b side X Y x y.

(** The two bits of square (x, y) are the same in [b] and [b']. *)
Definition sameSquare (b b' : Board.t) (x y : Z) : Prop :=
  Bitset.test (Board.taken b') (x + 8 * y) = Bitset.test (Board.taken b) (x + 8 * y) /\
  Bitset.test (Board.black b') (x + 8 * y) = Bitset.test (Board.black b) (x + 8 * y).

(** After the directions [done], the stones bracketed in them belong to
    [side] and every other square of the board is as it was. *)
Definition flippedIn (done : list (Z * Z)) (b bk : Board.t) (side : Side) (X Y : Z) : Prop :=
  forall x y, Board.onBoard x y = true ->
    (capturedIn done b side X Y x y -> Board.get bk side x y = true) /\
    (~ capturedIn done b side X Y x y -> sameSquare b bk x y).

(** Case analysis on which of the eight directions [H] names. *)
Ltac direction_cases H :=
  simpl in H;
  repeat (destruct H as [H | H]; [inversion H; subst; clear H |]);
  [.. | destruct H].

(** The squares of the board on which [side] has a stone. *)
Definition stones (b : Board.t) (side : Side) : list (Z * Z) :=
  List.filter (fun ij => Board.get b side (fst ij) (snd ij)) Board.squares.
(** One turn of the loop of [setBoard]. *)
Definition setBoardStep (data : list ascii) (tb : Board.t) (i : Z) : Board.t :=
  let c := nth (Z.to_nat i) data " "%char in
  let tb :=
    if Ascii.eqb c "b"%char
    then Board.mk (Bitset.set (Board.taken tb) i true) (Bitset.set (Board.black tb) i true)
    else tb in
  if Ascii.eqb c "w"%char
  then Board.mk (Bitset.set (Board.taken tb) i true) (Board.black tb)
  else tb.

(** The result of the loop of [negamax] as a function of the value [P] of
    the player's own board; [child] gives the result of the recursive
    call from the value of the child board and the running [alpha]. *)
Fixpoint scanValue (P : Board.t) (playingSide : Side) (beta : Z)
    (child : Board.t -> Z -> Z * option Move)
    (sqs : list (Z * Z)) (alpha : Z) (moveMade : option Move) : Z * option Move :=
  match sqs with
  | [] => (alpha, moveMade)
  | (i, j) :: rest =>
      if Board.checkMove P (Some (mkMove i j)) playingSide then
        let childResults := child (Board.doMove P (Some (mkMove i j)) playingSide) alpha in
        let boardScore := neg32 (fst childResults) in
        if boardScore >? beta then (beta, Some (mkMove i j))
        else scanValue P playingSide beta child rest
               (if boardScore >? alpha then boardScore else alpha)
               (if boardScore >? alpha then Some (mkMove i j) else moveMade)
      else scanValue P playingSide beta child rest alpha moveMade
  end.

(** The result of [negamax] as a function of the values of the player's
    own board [P] and of the board [B] it is called on. *)
Fixpoint negamaxValue (rootSide : Side) (P B : Board.t) (playingSide : Side)
    (depth : nat) (alpha beta : Z) : Z * option Move :=
  match depth with
  | O => (Board.getScore B rootSide true, None)
  | S depth' =>
      if negb (Board.hasMoves B playingSide)
      then (Board.getScore B rootSide true, None)
      else scanValue P playingSide beta
             (fun childBoard alpha =>
                negamaxValue rootSide P childBoard
                  match playingSide with WHITE => BLACK | BLACK => WHITE end
                  depth' (neg32 beta) (neg32 alpha))
             Board.squares alpha None
  end.

(** The state of a loop of [minimax] after a legal square whose child
    scored [boardScore]. *)
Definition bestAfter (better : Z -> Z -> bool) (boardScore : Z) (m : Move)
    (bestValue : Z) (moveMade : option Move) : Z * option Move :=
  match moveMade with
  | None => (boardScore, Some m)
  | Some _ => if better boardScore bestValue then (boardScore, Some m)
              else (bestValue, moveMade)
  end.

(** The score [child] gives to the board [P] after the move (i, j). *)
Definition moveScore (P : Board.t) (playingSide : Side)
    (child : Board.t -> Z * option Move) (i j : Z) : Z :=
  fst (child (Board.doMove P (Some (mkMove i j)) playingSide)).

(** The result of a loop of [minimax] as a function of the value [P] of
    the player's own board. *)
Fixpoint scanBestValue (better : Z -> Z -> bool) (P : Board.t) (playingSide : Side)
    (child : Board.t -> Z * option Move)
    (sqs : list (Z * Z)) (bestValue : Z) (moveMade : option Move) : Z * option Move :=
  match sqs with
  | [] => (bestValue, moveMade)
  | (i, j) :: rest =>
      if Board.checkMove P (Some (mkMove i j)) playingSide then
        let boardScore := fst (child (Board.doMove P (Some (mkMove i j)) playingSide)) in
        let st := bestAfter better boardScore (mkMove i j) bestValue moveMade in
        scanBestValue better P playingSide child rest (fst st) (snd st)
      else scanBestValue better P playingSide child rest bestValue moveMade
  end.

(** The result of [minimax] as a function of the values of the player's
    own board [P] and of the board [B] it is called on. *)
Fixpoint minimaxValue (rootSide : Side) (testingMinimax : bool) (P B : Board.t)
    (depth : nat) (maximizingPlayer : bool) : Z * option Move :=
  let playingSide := if maximizingPlayer then rootSide else otherSide rootSide in
  match depth with
  | O => (Board.getScore B rootSide testingMinimax, None)
  | S depth' =>
      if negb (Board.hasMoves B playingSide)
      then (Board.getScore B rootSide testingMinimax, None)
      else if maximizingPlayer then
        scanBestValue Z.gtb P playingSide
          (fun childBoard => minimaxValue rootSide testingMinimax P childBoard depth' false)
          Board.squares 0 None
      else
        scanBestValue Z.ltb P playingSide
          (fun childBoard => minimaxValue rootSide testingMinimax P childBoard depth' true)
          Board.squares 0 None
  end.

(** A board with no stone at all. *)
Definition emptyBoard : Board.t := Board.mk Bitset.reset Bitset.reset.

(** The array of 64 characters with a black stone in every square. *)
Definition allBlack : list ascii := List.repeat "b"%char 64.

(** The heap of the examples: the opening at address 1, the opening
    after BLACK's (4, 5) at address 2. *)
Definition twoBoards : gmap loc Board.t :=
  <[2%positive := afterOneMove]> (<[1%positive := Board.new]> ∅).

(** The same two boards at other addresses, owned by another BLACK
    player. *)
Definition twoBoardsElsewhere : gmap loc Board.t :=
  <[7%positive := afterOneMove]> (<[5%positive := Board.new]> ∅).

(** A BLACK player whose board is at address 5. *)
Definition otherBlackPlayer : Player.t := Player.mk 5%positive BLACK false.





(** * Properties *)

(** ** Bit sets *)
Section BitsetFacts.

Lemma set_negative s pos val : pos < 0 -> Bitset.set s pos val = s.
Proof.
  intros Hneg. unfold Bitset.set, Z.setbit, Z.clearbit.
  rewrite Z.shiftl_1_l, Z.pow_neg_r by lia.
  destruct val; [apply Z.lor_0_r | apply Z.ldiff_0_r].
Qed.

Lemma test_set s pos val q :
  Bitset.test (Bitset.set s pos val) q =
  if (q =? pos) && (0 <=? pos) then val else Bitset.test s q.
Proof.
  destruct (Z.leb_spec 0 pos) as [Hpos | Hneg].
  - rewrite andb_true_r. unfold Bitset.test, Bitset.set.
    destruct val.
    + rewrite Z.setbit_eqb by lia. rewrite (Z.eqb_sym q pos).
      destruct (pos =? q); reflexivity.
    + rewrite Z.clearbit_eqb. rewrite (Z.eqb_sym q pos).
      destruct (pos =? q); simpl; [apply andb_false_r | apply andb_true_r].
  - rewrite andb_false_r. now rewrite set_negative.
Qed.

Lemma set_idle s pos val : Bitset.test s pos = val -> Bitset.set s pos val = s.
Proof.
  intros Hbit. apply Z.bits_inj'. intros q _.
  change (Bitset.test (Bitset.set s pos val) q = Bitset.test s q).
  rewrite test_set.
  destruct (Z.eqb_spec q pos) as [-> | _]; simpl; [| reflexivity].
  destruct (0 <=? pos); congruence.
Qed.

Lemma total_set_out s pos val l :
  ~ In pos l -> total (Bitset.set s pos val) l = total s l.
Proof.
  induction l as [| q l IH]; simpl; intros Hnot; [reflexivity |].
  rewrite IH by tauto. rewrite test_set.
  destruct (Z.eqb_spec q pos) as [-> | _]; simpl; [tauto | reflexivity].
Qed.

Lemma total_set_in s pos val l :
  0 <= pos -> List.NoDup l -> In pos l ->
  total (Bitset.set s pos val) l = total s l + Z.b2z val - Z.b2z (Bitset.test s pos).
Proof.
  intros Hpos Hnd. induction Hnd as [| q l Hq Hnd IH]; simpl; [tauto |].
  intros [-> | Hin].
  - rewrite total_set_out by assumption. rewrite test_set, Z.eqb_refl.
    destruct (Z.leb_spec 0 pos); simpl; lia.
  - rewrite IH by assumption. rewrite test_set.
    destruct (Z.eqb_spec q pos) as [-> | _]; simpl; [tauto | lia].
Qed.

Lemma positions_NoDup : List.NoDup Bitset.positions.
Proof.
  unfold Bitset.positions. apply Finite.Injective_map_NoDup.
  - intros a b. apply Nat2Z.inj.
  - apply List.seq_NoDup.
Qed.

Lemma positions_spec pos : In pos Bitset.positions <-> Bitset.inRange pos.
Proof.
  unfold Bitset.positions, Bitset.inRange. rewrite in_map_iff. split.
  - intros (n & <- & Hn). apply in_seq in Hn. lia.
  - intros Hr. exists (Z.to_nat pos). split; [lia | apply in_seq; lia].
Qed.

Lemma count_set s pos val :
  Bitset.inRange pos ->
  Bitset.count (Bitset.set s pos val) =
  Bitset.count s + Z.b2z val - Z.b2z (Bitset.test s pos).
Proof.
  intros Hr. apply (total_set_in s pos val Bitset.positions).
  - destruct Hr; assumption.
  - apply positions_NoDup.
  - now apply positions_spec.
Qed.

End BitsetFacts.

(** ** Squares and their classes *)

Lemma onBoard_spec x y :
  Board.onBoard x y = true <-> 0 <= x < 8 /\ 0 <= y < 8.
Proof.
  unfold Board.onBoard. rewrite !andb_true_iff, !Z.leb_le, !Z.ltb_lt. lia.
Qed.

Lemma onBoard_inRange x y :
  Board.onBoard x y = true -> Bitset.inRange (x + 8 * y).
Proof. rewrite onBoard_spec. unfold Bitset.inRange. lia. Qed.

Lemma squares_spec i j : In (i, j) Board.squares <-> Board.onBoard i j = true.
Proof.
  rewrite onBoard_spec. unfold Board.squares. rewrite in_flat_map. split.
  - intros (a & Ha & Hin). apply in_map_iff in Hin as (c & Heq & Hc).
    apply in_seq in Ha. apply in_seq in Hc. inversion Heq; subst. lia.
  - intros [Hi Hj]. exists (Z.to_nat i). split; [apply in_seq; lia |].
    apply in_map_iff. exists (Z.to_nat j). split; [| apply in_seq; lia].
    f_equal; lia.
Qed.

Lemma diagonal_class x y :
  Board.getSquarePosition x y = DIAGONAL_TO_CORNER ->
  In (x, y) [(1, 1); (1, 6); (6, 1); (6, 6)].
Proof.
  unfold Board.getSquarePosition, BOARD_SIZE.
  change (8 - 1) with 7. change (8 - 2) with 6.
  coordinate_cases x; coordinate_cases y; decide_eqb;
    intros; try discriminate; simpl; tauto.
Qed.

(** C9 (as amended).  The class of a square depends on its coordinates
    only: CORNER is exactly the four corners, DIAGONAL_TO_CORNER exactly
    the four squares one diagonal step inside a corner, NEXT_TO_CORNER
    exactly the eight squares beside a corner along an edge, EDGE every
    other square of a boundary row or column, and OTHER all the rest. *)
Theorem getSquarePosition_classes (x y : Z) :
  (Board.getSquarePosition x y = CORNER <->
     (x = 0 \/ x = 7) /\ (y = 0 \/ y = 7)) /\
  (Board.getSquarePosition x y = DIAGONAL_TO_CORNER <->
     (x = 1 \/ x = 6) /\ (y = 1 \/ y = 6)) /\
  (Board.getSquarePosition x y = NEXT_TO_CORNER <->
     (x = 0 \/ x = 7) /\ (y = 1 \/ y = 6) \/
     (x = 1 \/ x = 6) /\ (y = 0 \/ y = 7)) /\
  (Board.getSquarePosition x y = EDGE <->
     (x = 0 \/ x = 7 \/ y = 0 \/ y = 7) /\
     ~ ((x = 0 \/ x = 7) /\ (y = 0 \/ y = 7)) /\
     ~ ((x = 0 \/ x = 7) /\ (y = 1 \/ y = 6) \/
        (x = 1 \/ x = 6) /\ (y = 0 \/ y = 7))) /\
  (Board.getSquarePosition x y = OTHER <->
     ~ (x = 0 \/ x = 7 \/ y = 0 \/ y = 7) /\
     ~ ((x = 1 \/ x = 6) /\ (y = 1 \/ y = 6))).
Proof.
  unfold Board.getSquarePosition, BOARD_SIZE.
  change (8 - 1) with 7. change (8 - 2) with 6.
  coordinate_cases x; coordinate_cases y; decide_eqb;
    repeat split; intros; try discriminate; lia.
Qed.

Lemma diagonal_squares :
  squaresOfClass DIAGONAL_TO_CORNER = [(1, 1); (1, 6); (6, 1); (6, 6)].
Proof. reflexivity. Qed.

(** C9 as stated fails: no list of eight distinct squares is the set of
    squares classified DIAGONAL_TO_CORNER; there are four of them. *)
Lemma diagonal_to_corner_not_eight :
  ~ exists l : list (Z * Z),
      List.NoDup l /\ length l = 8%nat /\
      forall x y, In (x, y) l <-> Board.getSquarePosition x y = DIAGONAL_TO_CORNER.
Proof.
  intros (l & Hnd & Hlen & Hl).
  assert (Hincl : incl l [(1, 1); (1, 6); (6, 1); (6, 6)]).
  { intros [x y] Hin. apply Hl in Hin. now apply diagonal_class. }
  apply List.NoDup_incl_length in Hincl; [| assumption].
  simpl in Hincl. lia.
Qed.

(** ** Illegal moves and passes *)

(** C4.  A pass, or a move that [checkMove] refuses for the side, leaves
    both bit sets of the board as they were. *)
Theorem doMove_illegal_unchanged (b : Board.t) (m : option Move) (side : Side) :
  m = None \/ Board.checkMove b m side = false ->
  Board.doMove b m side = b /\
  Board.taken (Board.doMove b m side) = Board.taken b /\
  Board.black (Board.doMove b m side) = Board.black b /\
  (forall s, Board.count (Board.doMove b m side) s = Board.count b s).
Proof.
  intros Hm.
  assert (Heq : Board.doMove b m side = b).
  { destruct Hm as [-> | Hillegal]; [reflexivity |].
    destruct m as [mv |]; [| reflexivity].
    unfold Board.doMove. now rewrite Hillegal. }
  rewrite Heq. auto.
Qed.

Lemma doMove_illegal_unchanged_witness :
  Board.doMove Board.new (Some (mkMove 0 0)) WHITE = Board.new /\
  Board.taken (Board.doMove Board.new (Some (mkMove 0 0)) WHITE) = Board.taken Board.new /\
  Board.black (Board.doMove Board.new (Some (mkMove 0 0)) WHITE) = Board.black Board.new /\
  (forall s, Board.count (Board.doMove Board.new (Some (mkMove 0 0)) WHITE) s =
             Board.count Board.new s).
Proof.
  apply (doMove_illegal_unchanged Board.new (Some (mkMove 0 0)) WHITE).
  right. vm_compute. reflexivity.
Defined.

(** ** The evaluation is zero-sum *)

Lemma get_sides b x y :
  Board.occupied b x y = true ->
  Board.get b WHITE x y = negb (Board.get b BLACK x y).
Proof.
  intros Hocc. unfold Board.get. rewrite Hocc. simpl.
  destruct (Bitset.test (Board.black b) (x + 8 * y)); reflexivity.
Qed.

Lemma squareScore_opposite b i j :
  Board.squareScore b WHITE i j = - Board.squareScore b BLACK i j.
Proof.
  unfold Board.squareScore.
  destruct (Board.occupied b i j) eqn:Hocc; [| reflexivity].
  rewrite (get_sides b i j Hocc).
  destruct (Board.get b BLACK i j); simpl; lia.
Qed.

Lemma weighted_sum_opposite b l acc :
  fold_left (fun totalScore ij => totalScore + Board.squareScore b WHITE (fst ij) (snd ij)) l (- acc) =
  - fold_left (fun totalScore ij => totalScore + Board.squareScore b BLACK (fst ij) (snd ij)) l acc.
Proof.
  revert acc. induction l as [| [i j] l IH]; intros acc; simpl; [reflexivity |].
  rewrite squareScore_opposite.
  replace (- acc + - Board.squareScore b BLACK i j)
    with (- (acc + Board.squareScore b BLACK i j)) by lia.
  apply IH.
Qed.

(** C10.  In both modes the score of a board for WHITE is the opposite of
    its score for BLACK, whatever the two bit sets hold. *)
Theorem getScore_antisymmetric (b : Board.t) (testingMinimax : bool) :
  Board.getScore b WHITE testingMinimax = - Board.getScore b BLACK testingMinimax.
Proof.
  unfold Board.getScore. destruct testingMinimax.
  - unfold isBLACK. lia.
  - pose proof (weighted_sum_opposite b Board.squares 0) as Hsum.
    change (- 0) with 0 in Hsum. exact Hsum.
Qed.

(** ** The scanning loop leaves the board within eight steps *)

Lemma directions_spec dx dy :
  In (dx, dy) Board.directions ->
  -1 <= dx <= 1 /\ -1 <= dy <= 1 /\ (dx <> 0 \/ dy <> 0).
Proof.
  simpl. intros H.
  repeat (destruct H as [H | H]; [inversion H; subst; lia |]).
  destruct H.
Qed.

Lemma ahead_step dx dy x y :
  In (dx, dy) Board.directions ->
  Board.onBoard x y = true ->
  1 <= ahead dx dy x y <= 8 /\
  (Board.onBoard (x + dx) (y + dy) = true ->
   ahead dx dy (x + dx) (y + dy) = ahead dx dy x y - 1).
Proof.
  intros Hd Hon. apply directions_spec in Hd. apply onBoard_spec in Hon.
  rewrite onBoard_spec. unfold ahead. split_eqb; lia.
Qed.

Lemma skip_stops fuel b other dx dy x y :
  In (dx, dy) Board.directions ->
  (Board.onBoard x y = true -> ahead dx dy x y <= Z.of_nat fuel) ->
  let '(x', y') := Board.skip fuel b other dx dy x y in
  Board.onBoard x' y' && Board.get b other x' y' = false.
Proof.
  intros Hd. revert x y. induction fuel as [| fuel IH]; intros x y Hroom; simpl.
  - destruct (Board.onBoard x y) eqn:Hon; [| reflexivity].
    pose proof (ahead_step dx dy x y Hd Hon). specialize (Hroom eq_refl). lia.
  - destruct (Board.onBoard x y && Board.get b other x y) eqn:Hgo; [| exact Hgo].
    apply IH. intros Hnext.
    apply andb_true_iff in Hgo as [Hon _].
    destruct (ahead_step dx dy x y Hd Hon) as [_ Hdec].
    specialize (Hroom Hon). rewrite Hdec by assumption. lia.
Qed.

Lemma skip_more fuel b other dx dy x y :
  (let '(x', y') := Board.skip fuel b other dx dy x y in
   Board.onBoard x' y' && Board.get b other x' y' = false) ->
  Board.skip (S fuel) b other dx dy x y = Board.skip fuel b other dx dy x y.
Proof.
  revert x y. induction fuel as [| fuel IH]; intros x y Hstop.
  - simpl in *. now rewrite Hstop.
  - change (Board.skip (S (S fuel)) b other dx dy x y)
      with (if Board.onBoard x y && Board.get b other x y
            then Board.skip (S fuel) b other dx dy (x + dx) (y + dy)
            else (x, y)).
    simpl in Hstop |- *.
    destruct (Board.onBoard x y && Board.get b other x y); [| reflexivity].
    now apply IH.
Qed.

(** The fuel of the model is enough: on whatever square the loop of
    [checkMove] or [doMove] starts, the square [skip 8] returns is one
    where the loop condition fails, so the C++ loop stops there too. *)
Lemma skip_fuel_enough b other dx dy x y :
  In (dx, dy) Board.directions ->
  let '(x', y') := Board.skip 8 b other dx dy x y in
  Board.onBoard x' y' && Board.get b other x' y' = false.
Proof.
  intros Hd. apply skip_stops; [assumption |].
  intros Hon. pose proof (ahead_step dx dy x y Hd Hon). simpl. lia.
Qed.

Lemma skip_any_fuel b other dx dy x y k :
  In (dx, dy) Board.directions ->
  Board.skip (8 + k) b other dx dy x y = Board.skip 8 b other dx dy x y.
Proof.
  intros Hd. induction k as [| k IH]; [reflexivity |].
  replace (8 + S k)%nat with (S (8 + k)) by lia.
  rewrite skip_more; [exact IH |].
  rewrite IH. now apply skip_fuel_enough.
Qed.

(** One square further than a square of the board, seven steps are
    enough, so the scan of [doMove] (which starts one square earlier)
    stops where the scan of [checkMove] does. *)
Lemma skip_after_first b other dx dy x y :
  In (dx, dy) Board.directions ->
  Board.onBoard x y && Board.get b other x y = true ->
  Board.skip 8 b other dx dy x y = Board.skip 8 b other dx dy (x + dx) (y + dy).
Proof.
  intros Hd Hgo.
  change (Board.skip 8 b other dx dy x y)
    with (if Board.onBoard x y && Board.get b other x y
          then Board.skip 7 b other dx dy (x + dx) (y + dy)
          else (x, y)).
  rewrite Hgo. symmetry. apply skip_more. apply skip_stops; [assumption |].
  intros Hnext. apply andb_true_iff in Hgo as [Hon _].
  destruct (ahead_step dx dy x y Hd Hon) as [Hbound Hdec].
  rewrite Hdec by assumption. simpl. lia.
Qed.

Lemma flip_more fuel b side other dx dy x y :
  In (dx, dy) Board.directions ->
  (Board.onBoard x y = true -> ahead dx dy x y <= Z.of_nat fuel) ->
  Board.flip (S fuel) b side other dx dy x y = Board.flip fuel b side other dx dy x y.
Proof.
  intros Hd. revert b x y. induction fuel as [| fuel IH]; intros b x y Hroom.
  - simpl. destruct (Board.onBoard x y) eqn:Hon; [| reflexivity].
    pose proof (ahead_step dx dy x y Hd Hon). specialize (Hroom eq_refl). lia.
  - change (Board.flip (S (S fuel)) b side other dx dy x y)
      with (if Board.onBoard x y && Board.get b other x y
            then Board.flip (S fuel) (Board.set b side x y) side other dx dy (x + dx) (y + dy)
            else b).
    change (Board.flip (S fuel) b side other dx dy x y)
      with (if Board.onBoard x y && Board.get b other x y
            then Board.flip fuel (Board.set b side x y) side other dx dy (x + dx) (y + dy)
            else b).
    destruct (Board.onBoard x y && Board.get b other x y) eqn:Hgo; [| reflexivity].
    apply IH. intros Hnext. apply andb_true_iff in Hgo as [Hon _].
    destruct (ahead_step dx dy x y Hd Hon) as [_ Hdec].
    specialize (Hroom Hon). rewrite Hdec by assumption. lia.
Qed.

(** The flipping loop of [doMove] is over within eight steps as well. *)
Lemma flip_fuel_enough b side other dx dy x y :
  In (dx, dy) Board.directions ->
  Board.flip 9 b side other dx dy x y = Board.flip 8 b side other dx dy x y.
Proof.
  intros Hd. apply flip_more; [assumption |].
  intros Hon. pose proof (ahead_step dx dy x y Hd Hon). simpl. lia.
Qed.

Lemma flip_any_fuel b side other dx dy x y k :
  In (dx, dy) Board.directions ->
  Board.flip (8 + k) b side other dx dy x y = Board.flip 8 b side other dx dy x y.
Proof.
  intros Hd. induction k as [| k IH]; [reflexivity |].
  replace (8 + S k)%nat with (S (8 + k)) by lia.
  rewrite flip_more; [exact IH | assumption |].
  intros Hon. pose proof (ahead_step dx dy x y Hd Hon). lia.
Qed.

(** ** What a legal move does to the counts *)

Lemma gain_trans side b1 b2 b3 :
  gain side b1 b3 = gain side b1 b2 + gain side b2 b3.
Proof. unfold gain. destruct (isBLACK side); lia. Qed.

Lemma gain_refl side b : gain side b b = 0.
Proof. unfold gain. destruct (isBLACK side); lia. Qed.

Lemma isBLACK_otherSide side : isBLACK (otherSide side) = negb (isBLACK side).
Proof. destruct side; reflexivity. Qed.

Lemma get_bits b side x y :
  Board.get b side x y = true ->
  Bitset.test (Board.taken b) (x + 8 * y) = true /\
  Bitset.test (Board.black b) (x + 8 * y) = isBLACK side.
Proof.
  unfold Board.get, Board.occupied. intros H.
  apply andb_true_iff in H as [Hocc Hcol]. apply Bool.eqb_prop in Hcol. auto.
Qed.

Lemma taken_set b side x y :
  Board.taken (Board.set b side x y) = Bitset.set (Board.taken b) (x + 8 * y) true.
Proof. reflexivity. Qed.

Lemma black_set b side x y :
  Board.black (Board.set b side x y) =
  Bitset.set (Board.black b) (x + 8 * y) (isBLACK side).
Proof. reflexivity. Qed.

(** Turning over a stone of the other side: the occupied set is the
    same and the colour set changes by exactly that stone. *)
Lemma set_turns_over b side x y :
  Board.onBoard x y && Board.get b (otherSide side) x y = true ->
  Board.taken (Board.set b side x y) = Board.taken b /\
  gain side b (Board.set b side x y) = 1.
Proof.
  intros Hgo. apply andb_true_iff in Hgo as [Hon Hget].
  apply get_bits in Hget as [Htaken Hblack].
  rewrite isBLACK_otherSide in Hblack.
  split.
  - rewrite taken_set. now apply set_idle.
  - unfold gain, Board.countBlack. rewrite black_set.
    rewrite count_set by now apply onBoard_inRange.
    rewrite Hblack. destruct (isBLACK side); simpl; lia.
Qed.

Lemma flip_counts fuel b side dx dy x y :
  let b' := Board.flip fuel b side (otherSide side) dx dy x y in
  Board.taken b' = Board.taken b /\
  0 <= gain side b b' /\
  (fuel <> O -> Board.onBoard x y && Board.get b (otherSide side) x y = true ->
   1 <= gain side b b') /\
  (Board.onBoard x y && Board.get b (otherSide side) x y = false -> b' = b).
Proof.
  revert b x y. induction fuel as [| fuel IH]; intros b x y; simpl.
  - rewrite gain_refl. repeat split; try lia; congruence.
  - destruct (Board.onBoard x y && Board.get b (otherSide side) x y) eqn:Hgo.
    + destruct (set_turns_over b side x y Hgo) as [Htaken Hone].
      destruct (IH (Board.set b side x y) (x + dx) (y + dy)) as (Ht & Hg & _ & _).
      rewrite (gain_trans side b (Board.set b side x y)), Hone.
      repeat split; try lia; try congruence.
    + rewrite gain_refl. repeat split; try lia; congruence.
Qed.

Lemma flipDirection_counts b side X Y d :
  let b' := Board.flipDirection side X Y b d in
  Board.taken b' = Board.taken b /\
  0 <= gain side b b' /\
  (b' = b \/ 1 <= gain side b b').
Proof.
  destruct d as [dx dy]. unfold Board.flipDirection.
  destruct (Board.skip 8 b (otherSide side) dx dy (X + dx) (Y + dy)) as [x y].
  destruct (Board.onBoard x y && Board.get b side x y).
  - destruct (flip_counts 8 b side dx dy (X + dx) (Y + dy)) as (Ht & Hg & Hfirst & Hnone).
    repeat split; try assumption.
    destruct (Board.onBoard (X + dx) (Y + dy) &&
              Board.get b (otherSide side) (X + dx) (Y + dy)) eqn:Hgo.
    + right. apply Hfirst; [discriminate | reflexivity].
    + left. now apply Hnone.
  - rewrite gain_refl. repeat split; try lia. now left.
Qed.

(** A direction in which [checkMove] sees a capture is one in which
    [doMove] turns over at least one stone. *)
Lemma captures_flips b side X Y d :
  In d Board.directions ->
  Board.captures b side X Y d = true ->
  1 <= gain side b (Board.flipDirection side X Y b d).
Proof.
  destruct d as [dx dy]. intros Hd. unfold Board.captures, Board.flipDirection.
  destruct (Board.onBoard (X + dx) (Y + dy) &&
            Board.get b (otherSide side) (X + dx) (Y + dy)) eqn:Hgo; [| discriminate].
  rewrite (skip_after_first b (otherSide side) dx dy (X + dx) (Y + dy) Hd Hgo).
  destruct (Board.skip 8 b (otherSide side) dx dy (X + dx + dx) (Y + dy + dy)) as [x y].
  intros Hend. rewrite Hend.
  destruct (flip_counts 8 b side dx dy (X + dx) (Y + dy)) as (_ & _ & Hfirst & _).
  apply Hfirst; [discriminate | assumption].
Qed.

Lemma directions_counts b side X Y ds :
  incl ds Board.directions ->
  forall bk,
    Board.taken bk = Board.taken b ->
    let b' := fold_left (Board.flipDirection side X Y) ds bk in
    Board.taken b' = Board.taken b /\
    gain side b bk <= gain side b b' /\
    (bk = b -> existsb (Board.captures b side X Y) ds = true -> 1 <= gain side b b').
Proof.
  induction ds as [| d ds IH]; intros Hincl bk Htaken; simpl.
  - repeat split; [assumption | lia | discriminate].
  - destruct (flipDirection_counts bk side X Y d) as (Ht & Hg & Hcases).
    assert (Hincl' : incl ds Board.directions).
    { intros e He. apply Hincl. now right. }
    destruct (IH Hincl' (Board.flipDirection side X Y bk d)) as (Ht' & Hg' & Hcap).
    { congruence. }
    rewrite (gain_trans side b bk (Board.flipDirection side X Y bk d)) in Hg'.
    repeat split; [assumption | lia |].
    intros -> Hex. rewrite gain_refl in Hg'.
    destruct (Board.captures b side X Y d) eqn:Hcaptures.
    + pose proof (captures_flips b side X Y d (Hincl d (or_introl eq_refl)) Hcaptures).
      lia.
    + simpl in Hex. destruct Hcases as [Hsame | Hmore]; [| lia].
      apply Hcap; assumption.
Qed.

Lemma doMove_legal b m side :
  Board.checkMove b (Some m) side = true ->
  Board.doMove b (Some m) side =
  Board.set (fold_left (Board.flipDirection side (getX m) (getY m)) Board.directions b)
            side (getX m) (getY m).
Proof. intros Hlegal. unfold Board.doMove. now rewrite Hlegal. Qed.

Lemma checkMove_free b m side :
  Board.checkMove b (Some m) side = true ->
  Bitset.test (Board.taken b) (getX m + 8 * getY m) = false.
Proof.
  unfold Board.checkMove, Board.checkSquare, Board.occupied.
  now destruct (Bitset.test (Board.taken b) (getX m + 8 * getY m)).
Qed.

Lemma checkMove_captures b m side :
  Board.checkMove b (Some m) side = true ->
  existsb (Board.captures b side (getX m) (getY m)) Board.directions = true.
Proof.
  unfold Board.checkMove, Board.checkSquare.
  now destruct (Board.occupied b (getX m) (getY m)).
Qed.

(** C3.  A move that [checkMove] accepts, on a square of the bit sets,
    gives its side strictly more stones, the other side no more than it
    had, and the board exactly one more occupied square. *)
Theorem doMove_legal_counts (b : Board.t) (m : Move) (side : Side) :
  Bitset.inRange (getX m + 8 * getY m) ->
  Board.checkMove b (Some m) side = true ->
  let b' := Board.doMove b (Some m) side in
  Board.count b side < Board.count b' side /\
  Board.count b' (otherSide side) <= Board.count b (otherSide side) /\
  Bitset.count (Board.taken b') = Bitset.count (Board.taken b) + 1 /\
  Board.count b' side + Board.count b' (otherSide side) =
    Board.count b side + Board.count b (otherSide side) + 1.
Proof.
  intros Hrange Hlegal b'. subst b'.
  rewrite (doMove_legal b m side Hlegal).
  pose proof (checkMove_free b m side Hlegal) as Hfree.
  destruct (directions_counts b side (getX m) (getY m) Board.directions
              (incl_refl _) b eq_refl) as (Htaken & _ & Hgain).
  specialize (Hgain eq_refl (checkMove_captures b m side Hlegal)).
  revert Htaken Hgain.
  generalize (fold_left (Board.flipDirection side (getX m) (getY m)) Board.directions b).
  intros bf Htaken Hgain.
  pose proof (count_set (Board.taken bf) (getX m + 8 * getY m) true Hrange) as Hocc.
  pose proof (count_set (Board.black bf) (getX m + 8 * getY m) (isBLACK side) Hrange) as Hcol.
  rewrite Htaken, Hfree in Hocc.
  unfold Board.count, Board.countWhite, Board.countBlack.
  rewrite taken_set, black_set, Htaken, Hocc, Hcol.
  unfold gain, Board.countBlack in Hgain.
  destruct (Bitset.test (Board.black bf) (getX m + 8 * getY m));
    destruct side; unfold isBLACK, otherSide, Z.b2z in *; lia.
Qed.

Lemma doMove_legal_counts_witness :
  let b' := Board.doMove Board.new (Some (mkMove 2 3)) BLACK in
  Board.count Board.new BLACK < Board.count b' BLACK /\
  Board.count b' (otherSide BLACK) <= Board.count Board.new (otherSide BLACK) /\
  Bitset.count (Board.taken b') = Bitset.count (Board.taken Board.new) + 1 /\
  Board.count b' BLACK + Board.count b' (otherSide BLACK) =
    Board.count Board.new BLACK + Board.count Board.new (otherSide BLACK) + 1.
Proof.
  apply (doMove_legal_counts Board.new (mkMove 2 3) BLACK).
  - unfold Bitset.inRange. simpl. lia.
  - vm_compute. reflexivity.
Defined.

(** ** The colour set stays inside the occupied set *)

Lemma blackWithinTaken_bits b :
  blackWithinTaken b <->
  forall pos, Bitset.test (Board.black b) pos = true ->
              Bitset.test (Board.taken b) pos = true.
Proof.
  unfold blackWithinTaken, Bitset.test. split.
  - intros Hz pos Hblack.
    assert (Hbit : Z.testbit (Z.ldiff (Board.black b) (Board.taken b)) pos = false)
      by (rewrite Hz; apply Z.bits_0).
    rewrite Z.ldiff_spec, Hblack in Hbit.
    now destruct (Z.testbit (Board.taken b) pos).
  - intros Hsub. apply Z.bits_inj'. intros pos _.
    rewrite Z.ldiff_spec, Z.bits_0.
    destruct (Z.testbit (Board.black b) pos) eqn:Hblack; [| reflexivity].
    now rewrite (Hsub pos Hblack).
Qed.

Lemma set_within b side x y :
  blackWithinTaken b -> blackWithinTaken (Board.set b side x y).
Proof.
  rewrite !blackWithinTaken_bits. intros Hsub pos.
  rewrite taken_set, black_set, !test_set.
  destruct ((pos =? x + 8 * y) && (0 <=? x + 8 * y)); [reflexivity | apply Hsub].
Qed.

Lemma flip_within fuel b side other dx dy x y :
  blackWithinTaken b -> blackWithinTaken (Board.flip fuel b side other dx dy x y).
Proof.
  revert b x y. induction fuel as [| fuel IH]; intros b x y Hb; simpl; [assumption |].
  destruct (Board.onBoard x y && Board.get b other x y); [| assumption].
  apply IH. now apply set_within.
Qed.

Lemma flipDirection_within side X Y b d :
  blackWithinTaken b -> blackWithinTaken (Board.flipDirection side X Y b d).
Proof.
  intros Hb. destruct d as [dx dy]. unfold Board.flipDirection.
  destruct (Board.skip 8 b (otherSide side) dx dy (X + dx) (Y + dy)) as [x y].
  destruct (Board.onBoard x y && Board.get b side x y); [| assumption].
  now apply flip_within.
Qed.

Lemma doMove_within b m side :
  blackWithinTaken b -> blackWithinTaken (Board.doMove b m side).
Proof.
  intros Hb. destruct m as [mv |]; [| assumption]. unfold Board.doMove.
  destruct (negb (Board.checkMove b (Some mv) side)); [assumption |].
  apply set_within. generalize Board.directions. intros ds.
  revert b Hb. induction ds as [| d ds IH]; intros b Hb; simpl; [assumption |].
  apply IH. now apply flipDirection_within.
Qed.

Lemma put_black_within tb i :
  blackWithinTaken tb ->
  blackWithinTaken (Board.mk (Bitset.set (Board.taken tb) i true)
                             (Bitset.set (Board.black tb) i true)).
Proof.
  rewrite !blackWithinTaken_bits. intros Hsub pos.
  cbn [Board.taken Board.black]. rewrite !test_set.
  destruct ((pos =? i) && (0 <=? i)); [reflexivity | apply Hsub].
Qed.

Lemma put_white_within tb i :
  blackWithinTaken tb ->
  blackWithinTaken (Board.mk (Bitset.set (Board.taken tb) i true) (Board.black tb)).
Proof.
  rewrite !blackWithinTaken_bits. intros Hsub pos Hblack.
  cbn [Board.taken Board.black] in *. rewrite test_set.
  destruct ((pos =? i) && (0 <=? i)); [reflexivity | now apply Hsub].
Qed.

Lemma setBoard_within b data : blackWithinTaken (Board.setBoard b data).
Proof.
  unfold Board.setBoard. generalize Bitset.positions. intros l.
  assert (Hstart : blackWithinTaken (Board.mk Bitset.reset Bitset.reset)) by reflexivity.
  revert Hstart. generalize (Board.mk Bitset.reset Bitset.reset).
  induction l as [| i l IH]; intros tb Htb; cbn [fold_left]; [assumption |].
  apply IH.
  destruct (Ascii.eqb _ "b"%char), (Ascii.eqb _ "w"%char);
    auto using put_black_within, put_white_within.
Qed.

Lemma copy_same b : Board.copy b = b.
Proof. now destruct b. Qed.

(** C6.  The board of the constructor has its colour set inside its
    occupied set, [set], [doMove], [setBoard] and [copy] keep it so, and
    so every board the class can hold has it. *)
Theorem black_within_taken_invariant :
  blackWithinTaken Board.new /\
  (forall b side x y, blackWithinTaken b -> blackWithinTaken (Board.set b side x y)) /\
  (forall b m side, blackWithinTaken b -> blackWithinTaken (Board.doMove b m side)) /\
  (forall b data, blackWithinTaken (Board.setBoard b data)) /\
  (forall b, blackWithinTaken b -> blackWithinTaken (Board.copy b)) /\
  (forall b, reachable b -> blackWithinTaken b).
Proof.
  split; [reflexivity |].
  split; [intros; now apply set_within |].
  split; [intros; now apply doMove_within |].
  split; [intros; apply setBoard_within |].
  split; [intros b Hb; now rewrite copy_same |].
  intros b Hreach. induction Hreach.
  - reflexivity.
  - now apply set_within.
  - now apply doMove_within.
  - apply setBoard_within.
  - now rewrite copy_same.
Qed.

(** ** Running the heap computations *)

Lemma preserved_refl (h : gmap loc Board.t) : preserved h h.
Proof. now intros l _. Qed.

Lemma preserved_trans (h1 h2 h3 : gmap loc Board.t) :
  preserved h1 h2 -> preserved h2 h3 -> preserved h1 h3.
Proof.
  intros H12 H23 l Hl. rewrite <- (H12 l Hl). apply H23. now rewrite (H12 l Hl).
Qed.

Lemma preserved_insert_fresh (h : gmap loc Board.t) l b :
  h !! l = None -> preserved h (<[l := b]> h).
Proof.
  intros Hfree k [bk Hk]. apply lookup_insert_ne. congruence.
Qed.

Lemma preserved_delete (h0 h : gmap loc Board.t) l :
  h0 !! l = None -> preserved h0 h -> preserved h0 (delete l h).
Proof.
  intros Hfree Hpres k Hk. rewrite lookup_delete_ne.
  - now apply Hpres.
  - destruct Hk as [bk Hk]. congruence.
Qed.

Lemma fresh_free (h : gmap loc Board.t) : h !! fresh (dom h) = None.
Proof. apply not_elem_of_dom. apply is_fresh. Qed.

Lemma run_load (h : gmap loc Board.t) l b :
  h !! l = Some b -> load l h = Some (b, h).
Proof. intros Hl. unfold load. now rewrite Hl. Qed.

Lemma run_store (h : gmap loc Board.t) l b b' :
  h !! l = Some b -> store l b' h = Some (tt, <[l := b']> h).
Proof. intros Hl. unfold store. now rewrite Hl. Qed.

Lemma run_bind {A B} (m : M A) (k : A -> M B) (h h' : gmap loc Board.t) a :
  m h = Some (a, h') -> (m ≫= k) h = k a h'.
Proof. intros Hm. unfold mbind, M_bind, Heap.bind. now rewrite Hm. Qed.

(** [copy] gives a new address, distinct from every live one, that holds
    the value of the board copied; nothing else changes. *)
Lemma run_copy (h : gmap loc Board.t) this b :
  h !! this = Some b ->
  BoardPtr.copy this h = Some (fresh (dom h), <[fresh (dom h) := b]> h).
Proof.
  intros Hthis. unfold BoardPtr.copy.
  pose proof (fresh_free h) as Hfresh.
  set (l := fresh (dom h)) in *.
  rewrite (run_bind (alloc Board.new) _ h (<[l := Board.new]> h) l) by reflexivity.
  assert (Hne : l <> this) by congruence.
  rewrite (run_bind (load this) _ (<[l := Board.new]> h) (<[l := Board.new]> h) b).
  2: { apply run_load. now rewrite lookup_insert_ne. }
  rewrite (run_bind (store l (Board.copy b)) _ (<[l := Board.new]> h)
             (<[l := Board.copy b]> (<[l := Board.new]> h)) tt).
  2: { apply (run_store _ l Board.new). apply lookup_insert_eq. }
  rewrite insert_insert_eq, copy_same. reflexivity.
Qed.

Lemma run_doMove (h : gmap loc Board.t) l b m side :
  h !! l = Some b ->
  BoardPtr.doMove l m side h = Some (tt, <[l := Board.doMove b m side]> h).
Proof.
  intros Hl. unfold BoardPtr.doMove.
  rewrite (run_bind (load l) _ h h b) by now apply run_load.
  now apply (run_store h l b).
Qed.

Lemma run_free (h : gmap loc Board.t) l b :
  h !! l = Some b -> free l h = Some (tt, delete l h).
Proof. intros Hl. unfold free. now rewrite Hl. Qed.

(** One turn of the loop of [negamax] on a square (i, j), when the
    player's own board holds [tb]. *)
Lemma scan_step this playingSide beta child i j rest alpha moveMade
    (h : gmap loc Board.t) tb :
  h !! Player.board this = Some tb ->
  Player.scan this playingSide beta child ((i, j) :: rest) alpha moveMade h =
  if Board.checkMove tb (Some (mkMove i j)) playingSide then
    let c := fresh (dom h) in
    match child c alpha (<[c := Board.doMove tb (Some (mkMove i j)) playingSide]> h) with
    | Some (childResults, h') =>
        let boardScore := neg32 (fst childResults) in
        if boardScore >? beta then Some ((beta, Some (mkMove i j)), h')
        else
          (free c ≫= fun _ =>
             Player.scan this playingSide beta child rest
               (if boardScore >? alpha then boardScore else alpha)
               (if boardScore >? alpha then Some (mkMove i j) else moveMade)) h'
    | None => None
    end
  else Player.scan this playingSide beta child rest alpha moveMade h.
Proof.
  intros Hthis. cbn [Player.scan].
  unfold BoardPtr.checkMove.
  rewrite (run_bind _ _ h h (Board.checkMove tb (Some (mkMove i j)) playingSide)).
  2: { now rewrite (run_bind (load (Player.board this)) _ h h tb) by now apply run_load. }
  destruct (Board.checkMove tb (Some (mkMove i j)) playingSide); [| reflexivity].
  cbv zeta. set (c := fresh (dom h)).
  rewrite (run_bind _ _ h (<[c := tb]> h) c) by now apply run_copy.
  rewrite (run_bind _ _ (<[c := tb]> h)
             (<[c := Board.doMove tb (Some (mkMove i j)) playingSide]> h) tt).
  2: { rewrite (run_doMove _ c tb) by apply lookup_insert_eq.
       now rewrite insert_insert_eq. }
  unfold mbind at 1, M_bind at 1, Heap.bind at 1.
  destruct (child c alpha _) as [[childResults h'] |]; [| reflexivity].
  destruct (neg32 (fst childResults) >? alpha), (neg32 (fst childResults) >? beta);
    reflexivity.
Qed.

(** ** The search leaves the live boards alone *)

Lemma negamax_leaf this board playingSide depth alpha beta
    (h : gmap loc Board.t) b :
  h !! board = Some b ->
  depth = O \/ Board.hasMoves b playingSide = false ->
  Player.negamax this board playingSide depth alpha beta h =
  Some ((Board.getScore b (Player.side this) true, None), h).
Proof.
  intros Hb Hleaf.
  assert (Hscore : (BoardPtr.getScore board (Player.side this) true ≫=
                      fun score => mret (score, @None Move)) h =
                   Some ((Board.getScore b (Player.side this) true, None), h)).
  { unfold BoardPtr.getScore.
    rewrite (run_bind _ _ h h (Board.getScore b (Player.side this) true)); [reflexivity |].
    now rewrite (run_bind (load board) _ h h b) by now apply run_load. }
  destruct depth as [| depth']; [exact Hscore |].
  destruct Hleaf as [Hzero | Hnone]; [discriminate |].
  cbn [Player.negamax]. unfold BoardPtr.hasMoves at 1.
  rewrite (run_bind _ _ h h (Board.hasMoves b playingSide)).
  2: { now rewrite (run_bind (load board) _ h h b) by now apply run_load. }
  rewrite Hnone. exact Hscore.
Qed.

(** With plies left and a move to make, the search is the loop over all
    the squares, run on the player's own board: the board it was called
    on is not looked at again. *)
Lemma negamax_node this board playingSide depth' alpha beta
    (h : gmap loc Board.t) b :
  h !! board = Some b ->
  Board.hasMoves b playingSide = true ->
  Player.negamax this board playingSide (S depth') alpha beta h =
  Player.scan this playingSide beta (Player.recurse this playingSide depth' beta)
              Board.squares alpha None h.
Proof.
  intros Hb Hmoves. cbn [Player.negamax]. unfold BoardPtr.hasMoves at 1.
  rewrite (run_bind _ _ h h (Board.hasMoves b playingSide)).
  2: { now rewrite (run_bind (load board) _ h h b) by now apply run_load. }
  rewrite Hmoves. reflexivity.
Qed.

Lemma scan_preserves this playingSide beta child :
  (forall c a (h : gmap loc Board.t),
      is_Some (h !! c) -> is_Some (h !! Player.board this) ->
      exists r h', child c a h = Some (r, h') /\ preserved h h') ->
  forall sqs alpha moveMade (h : gmap loc Board.t),
    is_Some (h !! Player.board this) ->
    exists r h',
      Player.scan this playingSide beta child sqs alpha moveMade h = Some (r, h') /\
      preserved h h'.
Proof.
  intros Hchild sqs. induction sqs as [| [i j] rest IH]; intros alpha moveMade h Hown.
  - exists (alpha, moveMade), h. split; [reflexivity | apply preserved_refl].
  - destruct Hown as [tb Htb]. rewrite (scan_step _ _ _ _ _ _ _ _ _ _ _ Htb).
    destruct (Board.checkMove tb (Some (mkMove i j)) playingSide).
    2: { apply IH. now exists tb. }
    cbv zeta. pose proof (fresh_free h) as Hfresh.
    set (c := fresh (dom h)) in *.
    set (h2 := <[c := Board.doMove tb (Some (mkMove i j)) playingSide]> h).
    assert (Hp2 : preserved h h2) by now apply preserved_insert_fresh.
    assert (Hc2 : is_Some (h2 !! c)) by (eexists; apply lookup_insert_eq).
    destruct (Hchild c alpha h2 Hc2) as (r & h3 & Hrun & Hp3).
    { rewrite Hp2; now exists tb. }
    rewrite Hrun. cbv zeta.
    assert (Hp : preserved h h3) by now apply (preserved_trans h h2 h3).
    destruct (neg32 (fst r) >? beta).
    + now exists (beta, Some (mkMove i j)), h3.
    + destruct Hc2 as [bc Hbc].
      assert (Hc3 : h3 !! c = Some bc) by (rewrite Hp3; [assumption | now exists bc]).
      rewrite (run_bind (free c) _ h3 (delete c h3) tt) by now apply (run_free h3 c bc).
      assert (Hpd : preserved h (delete c h3)) by now apply preserved_delete.
      destruct (IH (if neg32 (fst r) >? alpha then neg32 (fst r) else alpha)
                   (if neg32 (fst r) >? alpha then Some (mkMove i j) else moveMade)
                   (delete c h3)) as (r' & h' & Hrest & Hp').
      { rewrite Hpd; now exists tb. }
      exists r', h'. split; [assumption |].
      now apply (preserved_trans h (delete c h3) h').
Qed.

Lemma negamax_preserves this depth :
  forall board playingSide alpha beta (h : gmap loc Board.t),
    is_Some (h !! board) -> is_Some (h !! Player.board this) ->
    exists r h',
      Player.negamax this board playingSide depth alpha beta h = Some (r, h') /\
      preserved h h'.
Proof.
  induction depth as [| depth' IH]; intros board playingSide alpha beta h [b Hb] Hown.
  - eexists _, h. split; [| apply preserved_refl].
    apply (negamax_leaf this board playingSide 0 alpha beta h b Hb). now left.
  - destruct (Board.hasMoves b playingSide) eqn:Hmoves.
    + rewrite (negamax_node this board playingSide depth' alpha beta h b Hb Hmoves).
      apply scan_preserves; [| assumption].
      intros c a h1 Hc Hown1. apply IH; assumption.
    + eexists _, h. split; [| apply preserved_refl].
      apply (negamax_leaf this board playingSide (S depth') alpha beta h b Hb). now right.
Qed.

Lemma run_optional_doMove (h : gmap loc Board.t) l b m side :
  h !! l = Some b ->
  (match m with
   | Some _ => BoardPtr.doMove l m side
   | None => mret tt
   end) h = Some (tt, <[l := Board.doMove b m side]> h).
Proof.
  intros Hl. destruct m as [mv |].
  - now apply run_doMove.
  - cbn [Board.doMove]. now rewrite insert_id.
Qed.

(** C8.  A call of the search, at any depth and on any live board,
    returns with every board that was live (the one it was called on and
    the player's own among them) holding the value it held; and a whole
    turn of the player changes its own board by the opponent's move and
    then the chosen move, and no other live board at all. *)
Theorem negamax_never_mutates (this : Player.t) (board : loc) (playingSide : Side)
    (depth : nat) (alpha beta : Z) (opponentsMove : option Move) (msLeft : Z)
    (h : gmap loc Board.t) (B P : Board.t) :
  h !! board = Some B ->
  h !! Player.board this = Some P ->
  (exists r h',
      Player.negamax this board playingSide depth alpha beta h = Some (r, h') /\
      h' !! board = Some B /\
      h' !! Player.board this = Some P /\
      preserved h h') /\
  (exists nextMove h',
      Player.doMove this opponentsMove msLeft h = Some (nextMove, h') /\
      h' !! Player.board this =
        Some (Board.doMove
                (Board.doMove P opponentsMove (otherSide (Player.side this)))
                nextMove (Player.side this)) /\
      forall l, l <> Player.board this -> is_Some (h !! l) -> h' !! l = h !! l).
Proof.
  intros HB HP. split.
  - destruct (negamax_preserves this depth board playingSide alpha beta h)
      as (r & h' & Hrun & Hpres); [now exists B | now exists P |].
    exists r, h'. repeat split; try assumption.
    + rewrite Hpres; [assumption | now exists B].
    + rewrite Hpres; [assumption | now exists P].
  - unfold Player.doMove.
    set (P1 := Board.doMove P opponentsMove (otherSide (Player.side this))).
    set (h1 := <[Player.board this := P1]> h).
    rewrite (run_bind _ _ h h1 tt) by now apply run_optional_doMove.
    assert (HP1 : h1 !! Player.board this = Some P1) by apply lookup_insert_eq.
    destruct (negamax_preserves this 7 (Player.board this) (Player.side this)
                (INT_MIN + 1) INT_MAX h1) as (r & h2 & Hrun & Hpres);
      [now exists P1 | now exists P1 |].
    rewrite (run_bind _ _ h1 h2 r) by assumption. cbv zeta.
    assert (HP2 : h2 !! Player.board this = Some P1)
      by (rewrite Hpres; [assumption | now exists P1]).
    rewrite (run_bind _ _ h2 (<[Player.board this := Board.doMove P1 (snd r) (Player.side this)]> h2) tt)
      by now apply run_optional_doMove.
    eexists _, _. split; [reflexivity |]. split; [apply lookup_insert_eq |].
    intros l Hne Hl. rewrite lookup_insert_ne by congruence.
    assert (Hl1 : h1 !! l = h !! l) by (apply lookup_insert_ne; congruence).
    rewrite Hpres; [assumption | now rewrite Hl1].
Qed.

(** ** A copy is a board of its own *)

Lemma run_mutate (h : gmap loc Board.t) l b mu :
  h !! l = Some b -> mutate l mu h = Some (tt, <[l := mutated b mu]> h).
Proof.
  intros Hl. destruct mu; cbn [mutate mutated].
  - now apply run_doMove.
  - unfold BoardPtr.set. rewrite (run_bind (load l) _ h h b) by now apply run_load.
    now apply (run_store h l b).
  - unfold BoardPtr.setBoard. rewrite (run_bind (load l) _ h h b) by now apply run_load.
    now apply (run_store h l b).
Qed.

Lemma run_mutateAll mus :
  forall (h : gmap loc Board.t) l b,
    h !! l = Some b ->
    exists b' h',
      mutateAll l mus h = Some (tt, h') /\
      h' !! l = Some b' /\
      forall k, k <> l -> h' !! k = h !! k.
Proof.
  induction mus as [| mu rest IH]; intros h l b Hl.
  - exists b, h. repeat split; assumption.
  - cbn [mutateAll].
    rewrite (run_bind _ _ h (<[l := mutated b mu]> h) tt) by now apply run_mutate.
    destruct (IH (<[l := mutated b mu]> h) l (mutated b mu)) as (b' & h' & Hrun & Hl' & Hframe).
    { apply lookup_insert_eq. }
    exists b', h'. repeat split; try assumption.
    intros k Hk. rewrite (Hframe k Hk). now apply lookup_insert_ne.
Qed.

(** C7.  [copy] returns a board at an address of its own that holds the
    value of the original; whatever is then done to the copy, the original
    keeps both its bit sets, and so its count for either side. *)
Theorem copy_is_independent (h : gmap loc Board.t) (this : loc) (b : Board.t)
    (mus : list mutation) :
  h !! this = Some b ->
  exists c h1 h2,
    BoardPtr.copy this h = Some (c, h1) /\
    c <> this /\
    h1 !! c = Some b /\
    mutateAll c mus h1 = Some (tt, h2) /\
    h2 !! this = Some b /\
    forall side, BoardPtr.count this side h2 = Some (Board.count b side, h2).
Proof.
  intros Hthis. pose proof (fresh_free h) as Hfresh.
  set (c := fresh (dom h)) in *.
  assert (Hne : c <> this) by congruence.
  destruct (run_mutateAll mus (<[c := b]> h) c b) as (b' & h2 & Hrun & _ & Hframe).
  { apply lookup_insert_eq. }
  assert (Hkept : h2 !! this = Some b).
  { rewrite Hframe by congruence. now rewrite lookup_insert_ne. }
  exists c, (<[c := b]> h), h2. repeat split; try assumption.
  - now apply run_copy.
  - apply lookup_insert_eq.
  - intros side. unfold BoardPtr.count.
    now rewrite (run_bind (load this) _ h2 h2 b) by now apply run_load.
Qed.

(** ** Cutoff and ties in the loop of the search *)

(** One turn of the loop on a square that is a legal move of the
    player's own board: when the negated score of the child exceeds
    [beta], the loop ends there with [beta] and that move, whatever
    squares remain; when it exceeds neither [beta] nor the running
    [alpha], the loop goes on with the same [alpha] and the same recorded
    move; when it exceeds [alpha] only, both are replaced.  Either way
    the child board is freed before the loop goes on. *)
Lemma scan_turn (this : Player.t) (playingSide : Side) (depth' : nat)
    (beta : Z) (i j : Z) (rest : list (Z * Z)) (alpha : Z) (moveMade : option Move)
    (h h' : gmap loc Board.t) (tb : Board.t) (childResults : Z * option Move) :
  h !! Player.board this = Some tb ->
  Board.checkMove tb (Some (mkMove i j)) playingSide = true ->
  let childBoard := fresh (dom h) in
  let child := Player.recurse this playingSide depth' beta in
  child childBoard alpha
    (<[childBoard := Board.doMove tb (Some (mkMove i j)) playingSide]> h)
    = Some (childResults, h') ->
  let boardScore := neg32 (fst childResults) in
  (boardScore > beta ->
   Player.scan this playingSide beta child ((i, j) :: rest) alpha moveMade h =
   Some ((beta, Some (mkMove i j)), h')) /\
  (boardScore <= beta -> boardScore <= alpha ->
   Player.scan this playingSide beta child ((i, j) :: rest) alpha moveMade h =
   Player.scan this playingSide beta child rest alpha moveMade (delete childBoard h')) /\
  (boardScore <= beta -> boardScore > alpha ->
   Player.scan this playingSide beta child ((i, j) :: rest) alpha moveMade h =
   Player.scan this playingSide beta child rest boardScore (Some (mkMove i j))
               (delete childBoard h')).
Proof.
  intros Hown Hlegal childBoard child Hrun boardScore.
  pose proof (scan_step this playingSide beta child i j rest alpha moveMade h tb Hown)
    as Hstep.
  rewrite Hlegal in Hstep. cbv zeta in Hstep. fold childBoard in Hstep.
  rewrite Hrun in Hstep. fold boardScore in Hstep.
  assert (Hlive : exists bc, h' !! childBoard = Some bc).
  { set (h2 := <[childBoard := Board.doMove tb (Some (mkMove i j)) playingSide]> h) in *.
    assert (Hc2 : is_Some (h2 !! childBoard)) by (eexists; apply lookup_insert_eq).
    destruct (negamax_preserves this depth' childBoard
                match playingSide with WHITE => BLACK | BLACK => WHITE end
                (neg32 beta) (neg32 alpha) h2 Hc2) as (r & h3 & Hrun' & Hpres).
    { unfold h2. rewrite lookup_insert_ne; [now exists tb |].
      pose proof (fresh_free h). fold childBoard in H. congruence. }
    unfold child, Player.recurse in Hrun. rewrite Hrun in Hrun'.
    inversion Hrun'; subst r h3. destruct Hc2 as [bc Hbc]. exists bc.
    rewrite Hpres; [assumption | now exists bc]. }
  destruct Hlive as [bc Hbc].
  rewrite Hstep. repeat split.
  - intros Hcut. apply Z.gt_lt, Z.gtb_lt in Hcut. now rewrite Hcut.
  - intros Hbeta Halpha.
    assert (Hb : (boardScore >? beta) = false) by (rewrite Z.gtb_ltb; apply Z.ltb_ge; lia).
    assert (Ha : (boardScore >? alpha) = false) by (rewrite Z.gtb_ltb; apply Z.ltb_ge; lia).
    rewrite Hb, Ha.
    now rewrite (run_bind (free childBoard) _ h' (delete childBoard h') tt)
      by now apply (run_free h' childBoard bc).
  - intros Hbeta Halpha.
    assert (Hb : (boardScore >? beta) = false) by (rewrite Z.gtb_ltb; apply Z.ltb_ge; lia).
    assert (Ha : (boardScore >? alpha) = true) by (rewrite Z.gtb_ltb; apply Z.ltb_lt; lia).
    rewrite Hb, Ha.
    now rewrite (run_bind (free childBoard) _ h' (delete childBoard h') tt)
      by now apply (run_free h' childBoard bc).
Qed.

(** ** Concrete runs *)

Lemma copy_is_independent_witness :
  let h : gmap loc Board.t := <[1%positive := Board.new]> ∅ in
  exists c h1 h2,
    BoardPtr.copy 1%positive h = Some (c, h1) /\
    c <> 1%positive /\
    h1 !! c = Some Board.new /\
    mutateAll c [MutDoMove (Some (mkMove 2 3)) BLACK; MutSet WHITE 0 0] h1 = Some (tt, h2) /\
    h2 !! 1%positive = Some Board.new /\
    forall side, BoardPtr.count 1%positive side h2 = Some (Board.count Board.new side, h2).
Proof.
  intros h.
  apply (copy_is_independent h 1%positive Board.new
           [MutDoMove (Some (mkMove 2 3)) BLACK; MutSet WHITE 0 0]).
  reflexivity.
Defined.

Lemma negamax_never_mutates_witness :
  let h : gmap loc Board.t := <[2%positive := afterOneMove]> (<[1%positive := Board.new]> ∅) in
  (exists r h',
      Player.negamax blackPlayer 2%positive WHITE 2 (INT_MIN + 1) INT_MAX h = Some (r, h') /\
      h' !! 2%positive = Some afterOneMove /\
      h' !! Player.board blackPlayer = Some Board.new /\
      preserved h h') /\
  (exists nextMove h',
      Player.doMove blackPlayer None 1000 h = Some (nextMove, h') /\
      h' !! Player.board blackPlayer =
        Some (Board.doMove
                (Board.doMove Board.new None (otherSide (Player.side blackPlayer)))
                nextMove (Player.side blackPlayer)) /\
      forall l, l <> Player.board blackPlayer -> is_Some (h !! l) -> h' !! l = h !! l).
Proof.
  intros h.
  apply (negamax_never_mutates blackPlayer 2%positive WHITE 2 (INT_MIN + 1) INT_MAX
           None 1000 h afterOneMove Board.new).
  - reflexivity.
  - reflexivity.
Defined.


(** C1 (the code departs from it).  Called on a board other than the
    player's own, here the opening after BLACK's (4, 5) with WHITE to
    move and one ply to go, the search answers (2, 4): a move WHITE has
    on the player's own board, still at the opening, and does not have on
    the board the search was called on. *)
Theorem negamax_expands_player_board :
  let h : gmap loc Board.t :=
    <[2%positive := afterOneMove]> (<[1%positive := Board.new]> ∅) in
  playLegal Board.new [(BLACK, mkMove 4 5)] = Some afterOneMove /\
  Player.negamax blackPlayer 2%positive WHITE 1 (INT_MIN + 1) INT_MAX h =
    Some ((3, Some (mkMove 2 4)), h) /\
  Board.hasMoves afterOneMove WHITE = true /\
  Board.checkMove afterOneMove (Some (mkMove 2 4)) WHITE = false /\
  Board.checkMove Board.new (Some (mkMove 2 4)) WHITE = true.
Proof. vm_compute. repeat split; reflexivity. Qed.

(** C2 (the code departs from it).  At depth 0 the search returns the
    difference of the stone counts, not the weighted sum over the square
    classes: on the position after four legal moves from the opening the
    two differ, and the search gives the former. *)
Theorem negamax_leaf_counts_stones :
  let h : gmap loc Board.t := <[1%positive := afterFourMoves]> ∅ in
  playLegal Board.new
    [(BLACK, mkMove 2 3); (WHITE, mkMove 2 2); (BLACK, mkMove 2 1); (WHITE, mkMove 1 1)]
    = Some afterFourMoves /\
  Player.negamax blackPlayer 1%positive BLACK 0 (INT_MIN + 1) INT_MAX h =
    Some ((0, None), h) /\
  Board.getScore afterFourMoves BLACK true = 0 /\
  Board.getScore afterFourMoves BLACK false = 4.
Proof. vm_compute. repeat split; reflexivity. Qed.

(** * Further properties *)

(** ** Legal moves are bracketing moves *)

Lemma hasMoves_iff (b : Board.t) (side : Side) :
  Board.hasMoves b side = true <->
  exists x y, Board.onBoard x y = true /\
              Board.checkMove b (Some (mkMove x y)) side = true.
Proof.
  unfold Board.hasMoves. rewrite existsb_exists. split.
  - intros ([x y] & Hin & Hok). exists x, y. split; [now apply squares_spec | exact Hok].
  - intros (x & y & Hon & Hok). exists (x, y). split; [now apply squares_spec | exact Hok].
Qed.

Lemma get_exclusive b side x y :
  Board.get b side x y = true -> Board.get b (otherSide side) x y = false.
Proof.
  intros H. apply get_bits in H as [Ht Hb]. unfold Board.get.
  rewrite Hb, isBLACK_otherSide. destruct (isBLACK side); simpl; apply andb_false_r.
Qed.

Lemma skip_spec fuel b other dx dy :
  forall x y,
    exists k, 0 <= k <= Z.of_nat fuel /\
      Board.skip fuel b other dx dy x y = (x + k * dx, y + k * dy) /\
      run b other dx dy x y k.
Proof.
  induction fuel as [| fuel IH]; intros x y.
  - exists 0. split; [lia |]. split; [simpl; f_equal; lia |]. intros i Hi. lia.
  - cbn [Board.skip].
    destruct (Board.onBoard x y && Board.get b other x y) eqn:Hgo.
    + destruct (IH (x + dx) (y + dy)) as (k & Hk & Hres & Hrun).
      exists (k + 1). split; [lia |]. split.
      * rewrite Hres. f_equal; lia.
      * intros i Hi. destruct (Z.eq_dec i 0) as [-> | Hne].
        -- rewrite !Z.mul_0_l, !Z.add_0_r. now apply andb_true_iff.
        -- destruct (Hrun (i - 1)) as [Hon Hget]; [lia |].
           replace (x + i * dx) with (x + dx + (i - 1) * dx) by lia.
           replace (y + i * dy) with (y + dy + (i - 1) * dy) by lia. auto.
    + exists 0. split; [lia |]. split; [f_equal; lia |]. intros i Hi. lia.
Qed.

Lemma run_unique b other dx dy x y k k' :
  0 <= k -> 0 <= k' ->
  run b other dx dy x y k ->
  Board.onBoard (x + k * dx) (y + k * dy) && Board.get b other (x + k * dx) (y + k * dy) = false ->
  run b other dx dy x y k' ->
  Board.onBoard (x + k' * dx) (y + k' * dy) && Board.get b other (x + k' * dx) (y + k' * dy) = false ->
  k = k'.
Proof.
  intros Hk Hk' Hrun Hstop Hrun' Hstop'.
  destruct (Z.lt_trichotomy k k') as [Hlt | [Heq | Hgt]]; [| assumption |].
  - destruct (Hrun' k) as [Hon Hget]; [lia |]. rewrite Hon, Hget in Hstop. discriminate.
  - destruct (Hrun k') as [Hon Hget]; [lia |]. rewrite Hon, Hget in Hstop'. discriminate.
Qed.

Lemma captures_brackets b side X Y dx dy :
  In (dx, dy) Board.directions ->
  Board.captures b side X Y (dx, dy) = true <-> exists k, brackets b side X Y dx dy k.
Proof.
  intros Hd. unfold Board.captures.
  pose proof (skip_fuel_enough b (otherSide side) dx dy (X + dx + dx) (Y + dy + dy) Hd) as Hstop.
  destruct (skip_spec 8 b (otherSide side) dx dy (X + dx + dx) (Y + dy + dy))
    as (k0 & Hk0 & Hres & Hrun0).
  rewrite Hres in Hstop |- *.
  split.
  - destruct (Board.onBoard (X + dx) (Y + dy) &&
              Board.get b (otherSide side) (X + dx) (Y + dy)) eqn:Hfirst; [| discriminate].
    intros Hend. apply andb_true_iff in Hend as [Hon Hget].
    exists (k0 + 1). split; [lia |]. split; [| split].
    + intros i Hi. destruct (Z.eq_dec i 0) as [-> | Hne].
      * rewrite !Z.mul_0_l, !Z.add_0_r. now apply andb_true_iff.
      * destruct (Hrun0 (i - 1)) as [Hon' Hget']; [lia |].
        replace (X + dx + i * dx) with (X + dx + dx + (i - 1) * dx) by lia.
        replace (Y + dy + i * dy) with (Y + dy + dy + (i - 1) * dy) by lia. auto.
    + replace (X + (k0 + 1 + 1) * dx) with (X + dx + dx + k0 * dx) by lia.
      replace (Y + (k0 + 1 + 1) * dy) with (Y + dy + dy + k0 * dy) by lia. exact Hon.
    + replace (X + (k0 + 1 + 1) * dx) with (X + dx + dx + k0 * dx) by lia.
      replace (Y + (k0 + 1 + 1) * dy) with (Y + dy + dy + k0 * dy) by lia. exact Hget.
  - intros (k & Hk & Hrun & Hon & Hget).
    destruct (Hrun 0) as [Hon0 Hget0]; [lia |].
    rewrite !Z.mul_0_l, !Z.add_0_r in Hon0, Hget0. rewrite Hon0, Hget0. simpl.
    assert (Hkk : k - 1 = k0).
    { apply (run_unique b (otherSide side) dx dy (X + dx + dx) (Y + dy + dy)); try lia;
        try assumption.
      - intros i Hi. destruct (Hrun (i + 1)) as [Hon' Hget']; [lia |].
        replace (X + dx + dx + i * dx) with (X + dx + (i + 1) * dx) by lia.
        replace (Y + dy + dy + i * dy) with (Y + dy + (i + 1) * dy) by lia. auto.
      - replace (X + dx + dx + (k - 1) * dx) with (X + (k + 1) * dx) by lia.
        replace (Y + dy + dy + (k - 1) * dy) with (Y + (k + 1) * dy) by lia.
        rewrite (get_exclusive b side _ _ Hget). apply andb_false_r. }
    subst k0.
    replace (X + dx + dx + (k - 1) * dx) with (X + (k + 1) * dx) by lia.
    replace (Y + dy + dy + (k - 1) * dy) with (Y + (k + 1) * dy) by lia.
    now rewrite Hon, Hget.
Qed.

(** X2.  [checkMove] accepts a move exactly when its square is free and, in
    one of the eight directions, a run of one or more stones of the other
    side, all on the board, is followed by a stone of the mover's side on
    the board. *)
Theorem checkMove_brackets (b : Board.t) (m : Move) (side : Side) :
  Board.checkMove b (Some m) side = true <->
  Board.occupied b (getX m) (getY m) = false /\
  exists dx dy k, In (dx, dy) Board.directions /\
                  brackets b side (getX m) (getY m) dx dy k.
Proof.
  unfold Board.checkMove, Board.checkSquare.
  destruct (Board.occupied b (getX m) (getY m)).
  - split; [discriminate | intros [H _]; discriminate].
  - rewrite existsb_exists. split.
    + intros ([dx dy] & Hd & Hcap). split; [reflexivity |].
      apply (captures_brackets b side _ _ dx dy Hd) in Hcap as [k Hk].
      now exists dx, dy, k.
    + intros (_ & dx & dy & k & Hd & Hk). exists (dx, dy). split; [assumption |].
      apply (captures_brackets b side _ _ dx dy Hd). now exists k.
Qed.

Lemma sameSquare_refl b x y : sameSquare b b x y.
Proof. split; reflexivity. Qed.

Lemma sameSquare_trans b1 b2 b3 x y :
  sameSquare b1 b2 x y -> sameSquare b2 b3 x y -> sameSquare b1 b3 x y.
Proof. intros [H1 H2] [H3 H4]. split; congruence. Qed.

Lemma sameSquare_get b b' x y :
  sameSquare b b' x y ->
  Board.occupied b' x y = Board.occupied b x y /\
  forall s, Board.get b' s x y = Board.get b s x y.
Proof.
  intros [Ht Hb]. unfold Board.get, Board.occupied. rewrite Ht, Hb. auto.
Qed.

Lemma set_elsewhere b side x y x' y' :
  Board.onBoard x y = true -> Board.onBoard x' y' = true ->
  ~ (x' = x /\ y' = y) ->
  sameSquare b (Board.set b side x y) x' y'.
Proof.
  rewrite !onBoard_spec. intros Hon Hon' Hne. unfold sameSquare.
  rewrite taken_set, black_set, !test_set.
  destruct (Z.eqb_spec (x' + 8 * y') (x + 8 * y)) as [Heq | _]; [lia | auto].
Qed.

Lemma set_gets b side x y :
  Board.onBoard x y = true -> Board.get (Board.set b side x y) side x y = true.
Proof.
  intros Hon. apply onBoard_inRange in Hon. unfold Bitset.inRange in Hon.
  unfold Board.get, Board.occupied. rewrite taken_set, black_set, !test_set.
  rewrite Z.eqb_refl. destruct (Z.leb_spec 0 (x + 8 * y)); [| lia].
  simpl. apply Bool.eqb_reflx.
Qed.

(** The flipping loop on a run of [k] stones that ends at a square where
    the loop condition fails: the run is turned over and no other square
    of the board changes. *)
Lemma flip_spec fuel side dx dy :
  In (dx, dy) Board.directions ->
  forall b x y k,
    0 <= k <= Z.of_nat fuel ->
    run b (otherSide side) dx dy x y k ->
    Board.onBoard (x + k * dx) (y + k * dy) &&
      Board.get b (otherSide side) (x + k * dx) (y + k * dy) = false ->
    let b' := Board.flip fuel b side (otherSide side) dx dy x y in
    (forall i, 0 <= i < k -> Board.get b' side (x + i * dx) (y + i * dy) = true) /\
    (forall x' y', Board.onBoard x' y' = true ->
                   (forall i, 0 <= i < k -> ~ (x' = x + i * dx /\ y' = y + i * dy)) ->
                   sameSquare b b' x' y').
Proof.
  intros Hd. induction fuel as [| fuel IH]; intros b x y k Hk Hrun Hstop.
  - assert (k = 0) by lia. subst k. cbn [Board.flip]. split; [intros; lia |].
    intros; apply sameSquare_refl.
  - cbn [Board.flip].
    destruct (Z.eq_dec k 0) as [-> | Hpos].
    + rewrite !Z.mul_0_l, !Z.add_0_r in Hstop. rewrite Hstop.
      split; [intros; lia | intros; apply sameSquare_refl].
    + destruct (Hrun 0) as [Hon0 Hget0]; [lia |].
      rewrite !Z.mul_0_l, !Z.add_0_r in Hon0, Hget0. rewrite Hon0, Hget0.
      cbn [andb].
      assert (Hfar : forall i, 1 <= i ->
                Board.onBoard (x + i * dx) (y + i * dy) = true ->
                sameSquare b (Board.set b side x y) (x + i * dx) (y + i * dy)).
      { intros i Hi Honi. apply set_elsewhere; try assumption.
        clear - Hd Hi. direction_cases Hd; lia. }
      destruct (IH (Board.set b side x y) (x + dx) (y + dy) (k - 1)) as [Hflipped Hframe].
      * lia.
      * intros i Hi. destruct (Hrun (i + 1)) as [Hon Hget]; [lia |].
        replace (x + dx + i * dx) with (x + (i + 1) * dx) by lia.
        replace (y + dy + i * dy) with (y + (i + 1) * dy) by lia.
        split; [assumption |].
        destruct (sameSquare_get _ _ _ _ (Hfar (i + 1) ltac:(lia) Hon)) as [_ Hsame].
        now rewrite Hsame.
      * replace (x + dx + (k - 1) * dx) with (x + k * dx) by lia.
        replace (y + dy + (k - 1) * dy) with (y + k * dy) by lia.
        destruct (Board.onBoard (x + k * dx) (y + k * dy)) eqn:Honk; [| reflexivity].
        destruct (sameSquare_get _ _ _ _ (Hfar k ltac:(lia) Honk)) as [_ Hsame].
        rewrite Hsame. exact Hstop.
      * split.
        -- intros i Hi. destruct (Z.eq_dec i 0) as [-> | Hne].
           ++ rewrite !Z.mul_0_l, !Z.add_0_r.
              destruct (sameSquare_get _ _ x y (Hframe x y Hon0 ltac:(
                intros i Hi' [Hx Hy]; clear - Hd Hi' Hx Hy; direction_cases Hd; lia)))
                as [_ Hsame].
              rewrite Hsame. now apply set_gets.
           ++ specialize (Hflipped (i - 1) ltac:(lia)).
              replace (x + dx + (i - 1) * dx) with (x + i * dx) in Hflipped by lia.
              replace (y + dy + (i - 1) * dy) with (y + i * dy) in Hflipped by lia.
              exact Hflipped.
        -- intros x' y' Hon' Hout.
           apply (sameSquare_trans b (Board.set b side x y)).
           ++ apply set_elsewhere; try assumption.
              specialize (Hout 0 ltac:(lia)). rewrite !Z.mul_0_l, !Z.add_0_r in Hout.
              exact Hout.
           ++ apply Hframe; [assumption |]. intros i Hi [Hx Hy].
              apply (Hout (i + 1) ltac:(lia)). split; lia.
Qed.

Lemma flipDirection_spec side X Y bk dx dy :
  In (dx, dy) Board.directions ->
  let b' := Board.flipDirection side X Y bk (dx, dy) in
  (forall k i, brackets bk side X Y dx dy k -> 1 <= i <= k ->
               Board.get b' side (X + i * dx) (Y + i * dy) = true) /\
  (forall x y, Board.onBoard x y = true ->
               ~ capturedIn [(dx, dy)] bk side X Y x y ->
               sameSquare bk b' x y).
Proof.
  intros Hd. unfold Board.flipDirection.
  pose proof (skip_fuel_enough bk (otherSide side) dx dy (X + dx) (Y + dy) Hd) as Hstop.
  destruct (skip_spec 8 bk (otherSide side) dx dy (X + dx) (Y + dy))
    as (k0 & Hk0 & Hres & Hrun0).
  rewrite Hres in Hstop |- *.
  assert (Huniq : forall k, brackets bk side X Y dx dy k ->
            k = k0 /\
            Board.onBoard (X + dx + k0 * dx) (Y + dy + k0 * dy) &&
              Board.get bk side (X + dx + k0 * dx) (Y + dy + k0 * dy) = true).
  { intros k (Hk & Hrun & Hon & Hget).
    assert (k = k0).
    { apply (run_unique bk (otherSide side) dx dy (X + dx) (Y + dy)); try lia; try assumption.
      replace (X + dx + k * dx) with (X + (k + 1) * dx) by lia.
      replace (Y + dy + k * dy) with (Y + (k + 1) * dy) by lia.
      rewrite (get_exclusive bk side _ _ Hget). apply andb_false_r. }
    subst k0. split; [reflexivity |].
    replace (X + dx + k * dx) with (X + (k + 1) * dx) by lia.
    replace (Y + dy + k * dy) with (Y + (k + 1) * dy) by lia.
    now rewrite Hon, Hget. }
  destruct (Board.onBoard (X + dx + k0 * dx) (Y + dy + k0 * dy) &&
            Board.get bk side (X + dx + k0 * dx) (Y + dy + k0 * dy)) eqn:Hend.
  - destruct (flip_spec 8 side dx dy Hd bk (X + dx) (Y + dy) k0 Hk0 Hrun0 Hstop)
      as [Hflipped Hframe].
    split.
    + intros k i Hb Hi. destruct (Huniq k Hb) as [-> _].
      specialize (Hflipped (i - 1) ltac:(lia)).
      replace (X + dx + (i - 1) * dx) with (X + i * dx) in Hflipped by lia.
      replace (Y + dy + (i - 1) * dy) with (Y + i * dy) in Hflipped by lia.
      exact Hflipped.
    + intros x y Hon Hnot. apply Hframe; [assumption |].
      intros i Hi [Hx Hy]. apply Hnot.
      exists dx, dy, k0, (i + 1). split; [now left |]. split.
      * split; [lia |]. split; [assumption |].
        apply andb_true_iff in Hend as [Hon' Hget'].
        replace (X + (k0 + 1) * dx) with (X + dx + k0 * dx) by lia.
        replace (Y + (k0 + 1) * dy) with (Y + dy + k0 * dy) by lia. auto.
      * split; [lia |]. split; lia.
  - split.
    + intros k i Hb Hi. destruct (Huniq k Hb) as [_ Habs]. discriminate.
    + intros. apply sameSquare_refl.
Qed.

Lemma ray_disjoint dx dy dx' dy' i j :
  In (dx, dy) Board.directions -> In (dx', dy') Board.directions ->
  (dx, dy) <> (dx', dy') -> 1 <= i -> 1 <= j ->
  i * dx = j * dx' -> i * dy = j * dy' -> False.
Proof.
  intros Hd Hd' Hne Hi Hj Hx Hy.
  direction_cases Hd; direction_cases Hd'; try (now apply Hne); lia.
Qed.

Lemma brackets_transfer b bk side X Y dx dy k :
  (forall i, 1 <= i -> Board.onBoard (X + i * dx) (Y + i * dy) = true ->
             sameSquare b bk (X + i * dx) (Y + i * dy)) ->
  brackets b side X Y dx dy k <-> brackets bk side X Y dx dy k.
Proof.
  intros Hsame.
  assert (Hget : forall i s, 1 <= i -> Board.onBoard (X + i * dx) (Y + i * dy) = true ->
            Board.get bk s (X + i * dx) (Y + i * dy) = Board.get b s (X + i * dx) (Y + i * dy)).
  { intros i s Hi Hon. now destruct (sameSquare_get _ _ _ _ (Hsame i Hi Hon)) as [_ H]. }
  unfold brackets, run. split; intros (Hk & Hrun & Hon & Hend); split; try assumption.
  - split; [| split; [assumption |]].
    + intros i Hi. destruct (Hrun i Hi) as [Hon' Hg]. split; [assumption |].
      replace (X + dx + i * dx) with (X + (i + 1) * dx) in * by lia.
      replace (Y + dy + i * dy) with (Y + (i + 1) * dy) in * by lia.
      rewrite Hget; [assumption | lia | assumption].
    + rewrite Hget; [assumption | lia | assumption].
  - split; [| split; [assumption |]].
    + intros i Hi. destruct (Hrun i Hi) as [Hon' Hg]. split; [assumption |].
      replace (X + dx + i * dx) with (X + (i + 1) * dx) in * by lia.
      replace (Y + dy + i * dy) with (Y + (i + 1) * dy) in * by lia.
      rewrite <- Hget; [assumption | lia | assumption].
    + rewrite <- Hget; [assumption | lia | assumption].
Qed.

Lemma capturedIn_app ds ds' b side X Y x y :
  capturedIn (ds ++ ds') b side X Y x y <->
  capturedIn ds b side X Y x y \/ capturedIn ds' b side X Y x y.
Proof.
  unfold capturedIn. split.
  - intros (dx & dy & k & i & Hin & H). apply in_app_or in Hin as [Hin | Hin];
      [left | right]; now exists dx, dy, k, i.
  - intros [(dx & dy & k & i & Hin & H) | (dx & dy & k & i & Hin & H)];
      exists dx, dy, k, i; (split; [apply in_or_app; auto | exact H]).
Qed.

Lemma directions_flipped b side X Y todo :
  forall done bk,
    List.NoDup (done ++ todo) ->
    incl (done ++ todo) Board.directions ->
    flippedIn done b bk side X Y ->
    flippedIn (done ++ todo) b (fold_left (Board.flipDirection side X Y) todo bk) side X Y.
Proof.
  induction todo as [| [dx dy] todo IH]; intros done bk Hnd Hincl Hinv.
  - rewrite app_nil_r. exact Hinv.
  - cbn [fold_left].
    replace (done ++ (dx, dy) :: todo) with ((done ++ [(dx, dy)]) ++ todo) in *
      by (rewrite <- app_assoc; reflexivity).
    apply IH; try assumption.
    assert (Hd : In (dx, dy) Board.directions).
    { apply Hincl. apply in_or_app. left. apply in_or_app. right. now left. }
    assert (Hnew : ~ In (dx, dy) done).
    { apply NoDup_app_remove_r in Hnd. apply NoDup_remove_2 in Hnd.
      rewrite app_nil_r in Hnd. exact Hnd. }
    assert (Hray : forall i x y, 1 <= i -> x = X + i * dx -> y = Y + i * dy ->
              ~ capturedIn done b side X Y x y).
    { intros i x y Hi -> -> (dx' & dy' & k & i' & Hin & _ & Hi' & Hx & Hy).
      apply (ray_disjoint dx dy dx' dy' i i'); try lia; try assumption.
      - apply Hincl. apply in_or_app. left. apply in_or_app. now left.
      - intros Heq. inversion Heq; subst. contradiction. }
    assert (Htransfer : forall k, brackets b side X Y dx dy k <-> brackets bk side X Y dx dy k).
    { intros k. apply brackets_transfer. intros i Hi Hon.
      apply (Hinv _ _ Hon). now apply (Hray i). }
    destruct (flipDirection_spec side X Y bk dx dy Hd) as [Hflipped Hframe].
    intros x y Hon. destruct (Hinv x y Hon) as [Hcap Hsame]. split.
    + intros Hc. apply capturedIn_app in Hc as [Hc | Hc].
      * assert (Hnot : ~ capturedIn [(dx, dy)] bk side X Y x y).
        { intros (dx0 & dy0 & k & i & [Heq | []] & _ & Hi & Hx & Hy).
          inversion Heq; subst dx0 dy0. now apply (Hray i x y ltac:(lia) Hx Hy). }
        destruct (sameSquare_get _ _ _ _ (Hframe x y Hon Hnot)) as [_ Hg].
        rewrite Hg. now apply Hcap.
      * destruct Hc as (dx0 & dy0 & k & i & [Heq | []] & Hb & Hi & -> & ->).
        inversion Heq; subst dx0 dy0. apply (Hflipped k i); [| assumption].
        now apply Htransfer.
    + intros Hnot.
      apply (sameSquare_trans b bk).
      * apply Hsame. intros Hc. apply Hnot. apply capturedIn_app. now left.
      * apply Hframe; [assumption |].
        intros (dx0 & dy0 & k & i & [Heq | []] & Hb & Hi & Hx & Hy).
        inversion Heq; subst dx0 dy0. apply Hnot. apply capturedIn_app. right.
        exists dx, dy, k, i. split; [now left |]. split; [now apply Htransfer | auto].
Qed.

Lemma directions_NoDup : List.NoDup Board.directions.
Proof.
  unfold Board.directions.
  repeat (constructor; [simpl; intros H; repeat (destruct H as [H | H]; [discriminate |]); exact H |]).
  constructor.
Qed.

(** X3.  What a legal move on the board does to each square of the board:
    the square played and every stone bracketed in any of the eight
    directions belong to the mover afterwards, and every other square is
    exactly as it was. *)
Theorem doMove_effect (b : Board.t) (m : Move) (side : Side) (x y : Z) :
  Board.onBoard (getX m) (getY m) = true ->
  Board.checkMove b (Some m) side = true ->
  Board.onBoard x y = true ->
  let b' := Board.doMove b (Some m) side in
  ((x = getX m /\ y = getY m) \/ captured b side (getX m) (getY m) x y ->
   Board.get b' side x y = true) /\
  (~ (x = getX m /\ y = getY m) -> ~ captured b side (getX m) (getY m) x y ->
   Board.occupied b' x y = Board.occupied b x y /\
   forall s, Board.get b' s x y = Board.get b s x y).
Proof.
  intros HonM Hlegal Hon b'. subst b'. rewrite (doMove_legal b m side Hlegal).
  pose proof (directions_flipped b side (getX m) (getY m) Board.directions [] b
                directions_NoDup (incl_refl _)) as Hinv.
  cbn [app] in Hinv.
  assert (Hstart : flippedIn [] b b side (getX m) (getY m)).
  { intros x0 y0 _. split.
    - intros (dx & dy & k & i & [] & _).
    - intros _. apply sameSquare_refl. }
  specialize (Hinv Hstart x y Hon). destruct Hinv as [Hcap Hsame].
  set (bf := fold_left (Board.flipDirection side (getX m) (getY m)) Board.directions b) in *.
  clearbody bf.
  assert (Hoff : captured b side (getX m) (getY m) x y -> ~ (x = getX m /\ y = getY m)).
  { intros (dx & dy & k & i & Hd & _ & Hi & Hx & Hy) [Hx' Hy'].
    clear - Hd Hi Hx Hy Hx' Hy'. direction_cases Hd; lia. }
  split.
  - intros [[-> ->] | Hc].
    + now apply set_gets.
    + destruct (sameSquare_get _ _ _ _
                  (set_elsewhere bf side (getX m) (getY m) x y HonM Hon (Hoff Hc)))
        as [_ Hg].
      rewrite Hg. now apply Hcap.
  - intros Hne Hnc. apply sameSquare_get.
    apply (sameSquare_trans b bf); [now apply Hsame |].
    now apply set_elsewhere.
Qed.

Lemma doMove_effect_witness :
  let b' := Board.doMove Board.new (Some (mkMove 2 3)) BLACK in
  ((3 = getX (mkMove 2 3) /\ 3 = getY (mkMove 2 3)) \/ captured Board.new BLACK 2 3 3 3 ->
   Board.get b' BLACK 3 3 = true) /\
  (~ (3 = getX (mkMove 2 3) /\ 3 = getY (mkMove 2 3)) -> ~ captured Board.new BLACK 2 3 3 3 ->
   Board.occupied b' 3 3 = Board.occupied Board.new 3 3 /\
   forall s, Board.get b' s 3 3 = Board.get Board.new s 3 3).
Proof.
  apply (doMove_effect Board.new (mkMove 2 3) BLACK 3 3); reflexivity.
Defined.

(** ** Game over, scores, counts and [setBoard] *)

(** X4.  When [isDone] holds, a pass is legal for both sides, and no move on
    the board is legal or changes the board. *)
Theorem isDone_no_move (b : Board.t) :
  Board.isDone b = true ->
  forall side,
    Board.checkMove b None side = true /\
    forall x y, Board.onBoard x y = true ->
                Board.checkMove b (Some (mkMove x y)) side = false /\
                Board.doMove b (Some (mkMove x y)) side = b.
Proof.
  unfold Board.isDone. intros Hdone side.
  apply negb_true_iff, orb_false_iff in Hdone as [Hb Hw].
  assert (Hnone : Board.hasMoves b side = false) by (destruct side; assumption).
  split; [cbn [Board.checkMove]; now rewrite Hnone |].
  intros x y Hon.
  assert (Hillegal : Board.checkMove b (Some (mkMove x y)) side = false).
  { destruct (Board.checkMove b (Some (mkMove x y)) side) eqn:Hc; [| reflexivity].
    rewrite <- Hnone. symmetry. apply hasMoves_iff. now exists x, y. }
  split; [assumption |]. unfold Board.doMove. now rewrite Hillegal.
Qed.

Lemma total_bounds s l : 0 <= total s l <= Z.of_nat (length l).
Proof.
  induction l as [| pos l IH]; cbn [total fold_right length]; [lia |].
  fold (total s l). destruct (Bitset.test s pos); cbn [Z.b2z]; lia.
Qed.

Lemma count_bounds s : 0 <= Bitset.count s <= 64.
Proof. apply (total_bounds s Bitset.positions). Qed.

Lemma total_subset s s' l :
  (forall pos, Bitset.test s pos = true -> Bitset.test s' pos = true) ->
  total s l <= total s' l.
Proof.
  intros Hsub. induction l as [| pos l IH]; cbn [total fold_right]; [lia |].
  fold (total s l) (total s' l).
  destruct (Bitset.test s pos) eqn:Hs; [rewrite (Hsub pos Hs) | destruct (Bitset.test s' pos)];
    cbn [Z.b2z]; lia.
Qed.

Lemma squareScore_bounds b side i j : -3 <= Board.squareScore b side i j <= 3.
Proof.
  unfold Board.squareScore. destruct (Board.occupied b i j); [| lia].
  destruct (Board.getSquarePosition i j); cbn [Position_eqb];
    destruct (negb (Board.get b side i j));
    unfold Board.CORNER_WEIGHT, Board.EDGE_WEIGHT, Board.NEXT_TO_CORNER_WEIGHT,
      Board.DIAGONAL_TO_CORNER_WEIGHT, Board.OTHER_WEIGHT; lia.
Qed.

Lemma weighted_sum_bounds b side l acc :
  acc - 3 * Z.of_nat (length l) <=
  fold_left (fun totalScore ij => totalScore + Board.squareScore b side (fst ij) (snd ij)) l acc
  <= acc + 3 * Z.of_nat (length l).
Proof.
  revert acc. induction l as [| [i j] l IH]; intros acc; cbn [fold_left length]; [lia |].
  specialize (IH (acc + Board.squareScore b side (fst (i, j)) (snd (i, j)))).
  pose proof (squareScore_bounds b side (fst (i, j)) (snd (i, j))). lia.
Qed.

Lemma squares_length : length Board.squares = 64%nat.
Proof. reflexivity. Qed.

(** X5.  The score stays within 192 of zero in both modes, so it never
    leaves the range of [int]; in the simple mode it is the count of the
    side minus the count of the other side, within 64 of zero when the
    colour set is inside the occupied set. *)
Theorem getScore_bounds (b : Board.t) (side : Side) (testingMinimax : bool) :
  -192 <= Board.getScore b side testingMinimax <= 192 /\
  Board.getScore b side true = Board.count b side - Board.count b (otherSide side) /\
  (blackWithinTaken b -> -64 <= Board.getScore b side true <= 64).
Proof.
  pose proof (count_bounds (Board.taken b)) as Ht.
  pose proof (count_bounds (Board.black b)) as Hb.
  split; [| split].
  - unfold Board.getScore. destruct testingMinimax.
    + unfold Board.countBlack, Board.countWhite. destruct (isBLACK side); lia.
    + pose proof (weighted_sum_bounds b side Board.squares 0) as H.
      rewrite squares_length in H. lia.
  - unfold Board.getScore, Board.count. destruct side; reflexivity.
  - intros Hinv0. pose proof (proj1 (blackWithinTaken_bits b) Hinv0) as Hinv.
    pose proof (total_subset (Board.black b) (Board.taken b) Bitset.positions Hinv) as Hle.
    change (Bitset.count (Board.black b) <= Bitset.count (Board.taken b)) in Hle.
    unfold Board.getScore, Board.countBlack, Board.countWhite. destruct (isBLACK side); lia.
Qed.

(** The bit positions of the squares, in the order of [Board.squares],
    are the 64 positions of a bit set, each once. *)
Lemma squares_positions :
  Permutation (map (fun ij => fst ij + 8 * snd ij) Board.squares) Bitset.positions.
Proof.
  apply NoDup_Permutation_bis.
  - vm_compute.
    repeat (constructor;
            [intros H; repeat (destruct H as [H | H]; [discriminate H |]); exact H |]).
    constructor.
  - reflexivity.
  - intros pos Hin. apply in_map_iff in Hin as ([x y] & <- & Hin).
    apply squares_spec, onBoard_inRange in Hin. now apply positions_spec.
Qed.

Lemma total_cons s pos l :
  total s (pos :: l) = Z.b2z (Bitset.test s pos) + total s l.
Proof. reflexivity. Qed.

Lemma total_Permutation s l l' : Permutation l l' -> total s l = total s l'.
Proof.
  induction 1; rewrite ?total_cons; lia.
Qed.

Lemma total_squares s (f : Z * Z -> bool) :
  (forall ij, In ij Board.squares -> f ij = Bitset.test s (fst ij + 8 * snd ij)) ->
  Z.of_nat (length (List.filter f Board.squares)) = Bitset.count s.
Proof.
  intros Hf. unfold Bitset.count. fold (total s Bitset.positions).
  rewrite <- (total_Permutation s _ _ squares_positions).
  revert Hf. generalize Board.squares. intros l Hf.
  induction l as [| ij l IH]; [reflexivity |].
  cbn [List.filter map]. rewrite total_cons.
  rewrite <- IH by (intros; apply Hf; now right).
  rewrite (Hf ij (or_introl eq_refl)).
  destruct (Bitset.test s (fst ij + 8 * snd ij)); cbn [length Z.b2z]; lia.
Qed.

Lemma filter_length_diff {A} (f g h : A -> bool) (l : list A) :
  (forall a, In a l -> Z.b2z (f a) = Z.b2z (g a) - Z.b2z (h a)) ->
  Z.of_nat (length (List.filter f l)) =
  Z.of_nat (length (List.filter g l)) - Z.of_nat (length (List.filter h l)).
Proof.
  induction l as [| a l IH]; intros Hpt; [reflexivity |].
  cbn [List.filter]. pose proof (Hpt a (or_introl eq_refl)) as Ha.
  specialize (IH (fun a' Hin => Hpt a' (or_intror Hin))).
  destruct (f a), (g a), (h a); cbn [length Z.b2z] in *; lia.
Qed.

(** X6.  When the colour set is inside the occupied set, [count] is the
    number of squares of the board on which [get] finds a stone of the
    side. *)
Theorem count_counts_stones (b : Board.t) (side : Side) :
  blackWithinTaken b ->
  Board.count b side = Z.of_nat (length (stones b side)).
Proof.
  intros Hinv0. pose proof (proj1 (blackWithinTaken_bits b) Hinv0) as Hinv.
  unfold stones, Board.count, Board.countBlack, Board.countWhite. destruct side; cbn [isBLACK].
  - rewrite (filter_length_diff
               (fun ij => Board.get b WHITE (fst ij) (snd ij))
               (fun ij => Bitset.test (Board.taken b) (fst ij + 8 * snd ij))
               (fun ij => Bitset.test (Board.black b) (fst ij + 8 * snd ij))).
    2: { intros ij _. unfold Board.get, Board.occupied.
         destruct (Bitset.test (Board.black b) (fst ij + 8 * snd ij)) eqn:Hb.
         - rewrite (Hinv _ Hb). reflexivity.
         - destruct (Bitset.test (Board.taken b) (fst ij + 8 * snd ij)); reflexivity. }
    rewrite (total_squares (Board.taken b)) by reflexivity.
    rewrite (total_squares (Board.black b)) by reflexivity. reflexivity.
  - symmetry. apply total_squares. intros ij _. unfold Board.get, Board.occupied.
    destruct (Bitset.test (Board.black b) (fst ij + 8 * snd ij)) eqn:Hb.
    + now rewrite (Hinv _ Hb).
    + destruct (Bitset.test (Board.taken b) (fst ij + 8 * snd ij)); reflexivity.
Qed.

Lemma count_counts_stones_witness :
  Board.count Board.new WHITE = Z.of_nat (length (stones Board.new WHITE)).
Proof. apply (count_counts_stones Board.new WHITE). reflexivity. Defined.

Lemma setBoardStep_bits data tb i q :
  0 <= i ->
  let isb := Ascii.eqb (nth (Z.to_nat i) data " "%char) "b"%char in
  let isw := Ascii.eqb (nth (Z.to_nat i) data " "%char) "w"%char in
  Bitset.test (Board.taken (setBoardStep data tb i)) q =
    Bitset.test (Board.taken tb) q || ((q =? i) && (isb || isw)) /\
  Bitset.test (Board.black (setBoardStep data tb i)) q =
    Bitset.test (Board.black tb) q || ((q =? i) && isb).
Proof.
  intros Hi isb isw. unfold setBoardStep. fold isb isw.
  assert (Hle : (0 <=? i) = true) by now apply Z.leb_le.
  destruct isb, isw; cbn [Board.taken Board.black]; rewrite ?test_set, ?Hle;
    destruct (q =? i); cbn [andb orb]; rewrite ?orb_true_r, ?orb_false_r; auto.
Qed.

Lemma setBoard_bits data l :
  (forall i, In i l -> 0 <= i) ->
  forall tb q,
    let isb := Ascii.eqb (nth (Z.to_nat q) data " "%char) "b"%char in
    let isw := Ascii.eqb (nth (Z.to_nat q) data " "%char) "w"%char in
    let tb' := fold_left (setBoardStep data) l tb in
    Bitset.test (Board.taken tb') q =
      Bitset.test (Board.taken tb) q || (existsb (Z.eqb q) l && (isb || isw)) /\
    Bitset.test (Board.black tb') q =
      Bitset.test (Board.black tb) q || (existsb (Z.eqb q) l && isb).
Proof.
  intros Hpos tb q isb isw. revert tb.
  induction l as [| i l IH]; intros tb; cbn [fold_left existsb].
  - rewrite !andb_false_l, !orb_false_r. auto.
  - assert (Hi : 0 <= i) by (apply Hpos; now left).
    specialize (IH (fun j Hj => Hpos j (or_intror Hj)) (setBoardStep data tb i)).
    cbv zeta in IH |- *. destruct IH as [Ht Hb]. rewrite Ht, Hb.
    destruct (setBoardStep_bits data tb i q Hi) as [Ht1 Hb1]. rewrite Ht1, Hb1.
    destruct (Z.eqb_spec q i) as [-> | Hne]; fold isb isw.
    + destruct (Bitset.test (Board.taken tb) i), (Bitset.test (Board.black tb) i),
        isb, isw, (existsb (Z.eqb i) l); auto.
    + cbn [andb orb]. rewrite !orb_false_r. auto.
Qed.

(** X7.  After [setBoard] on an array of at least 64 characters, a square of
    the board holds a black stone exactly where the array has 'b', a white
    stone exactly where it has 'w', and is empty elsewhere. *)
Theorem setBoard_reads_back (b : Board.t) (data : list ascii) (x y : Z) :
  (64 <= length data)%nat ->
  Board.onBoard x y = true ->
  let c := nth (Z.to_nat (x + 8 * y)) data " "%char in
  let b' := Board.setBoard b data in
  Board.get b' BLACK x y = Ascii.eqb c "b"%char /\
  Board.get b' WHITE x y = Ascii.eqb c "w"%char /\
  Board.occupied b' x y = Ascii.eqb c "b"%char || Ascii.eqb c "w"%char.
Proof.
  intros _ Hon c b'.
  assert (Hin : existsb (Z.eqb (x + 8 * y)) Bitset.positions = true).
  { apply existsb_exists. exists (x + 8 * y). split; [| apply Z.eqb_refl].
    apply positions_spec. now apply onBoard_inRange. }
  destruct (setBoard_bits data Bitset.positions
              (fun i Hi => proj1 (proj1 (positions_spec i) Hi))
              (Board.mk Bitset.reset Bitset.reset) (x + 8 * y)) as [Ht Hb].
  cbv zeta in Ht, Hb. fold c in Ht, Hb. rewrite Hin in Ht, Hb.
  cbn [andb Board.taken Board.black] in Ht, Hb.
  unfold Bitset.reset in Ht, Hb. unfold Bitset.test at 2 in Ht. unfold Bitset.test at 2 in Hb.
  rewrite Z.bits_0 in Ht, Hb. cbn [orb] in Ht, Hb.
  unfold Board.get, Board.occupied. subst b'.
  change (Board.setBoard b data)
    with (fold_left (setBoardStep data) Bitset.positions (Board.mk 0 0)).
  rewrite Ht, Hb. cbn [isBLACK].
  destruct (Ascii.eqb_spec c "b"%char) as [Hcb | Hcb];
    destruct (Ascii.eqb_spec c "w"%char) as [Hcw | Hcw]; try (repeat split; reflexivity).
  rewrite Hcb in Hcw. discriminate.
Qed.

(** ** The value of the search *)

Lemma scan_value this playingSide beta child childValue P :
  (forall c a (h : gmap loc Board.t) Bc,
      h !! c = Some Bc -> h !! Player.board this = Some P ->
      exists h', child c a h = Some (childValue Bc a, h') /\ preserved h h') ->
  forall sqs alpha moveMade (h : gmap loc Board.t),
    h !! Player.board this = Some P ->
    exists h',
      Player.scan this playingSide beta child sqs alpha moveMade h =
        Some (scanValue P playingSide beta childValue sqs alpha moveMade, h') /\
      preserved h h'.
Proof.
  intros Hchild sqs. induction sqs as [| [i j] rest IH]; intros alpha moveMade h Hown.
  - exists h. split; [reflexivity | apply preserved_refl].
  - rewrite (scan_step _ _ _ _ _ _ _ _ _ _ _ Hown). cbn [scanValue].
    destruct (Board.checkMove P (Some (mkMove i j)) playingSide).
    2: { now apply IH. }
    cbv zeta. pose proof (fresh_free h) as Hfresh.
    set (c := fresh (dom h)) in *.
    set (Bc := Board.doMove P (Some (mkMove i j)) playingSide).
    set (h2 := <[c := Bc]> h).
    assert (Hp2 : preserved h h2) by now apply preserved_insert_fresh.
    assert (Hc2 : h2 !! c = Some Bc) by apply lookup_insert_eq.
    destruct (Hchild c alpha h2 Bc Hc2) as (h3 & Hrun & Hp3).
    { rewrite Hp2; [assumption | now exists P]. }
    rewrite Hrun. cbv zeta. cbn [fst].
    assert (Hp : preserved h h3) by now apply (preserved_trans h h2 h3).
    destruct (neg32 (fst (childValue Bc alpha)) >? beta).
    + now exists h3.
    + assert (Hc3 : h3 !! c = Some Bc) by (rewrite Hp3; [assumption | now exists Bc]).
      rewrite (run_bind (free c) _ h3 (delete c h3) tt) by now apply (run_free h3 c Bc).
      assert (Hpd : preserved h (delete c h3)) by now apply preserved_delete.
      destruct (IH (if neg32 (fst (childValue Bc alpha)) >? alpha
                    then neg32 (fst (childValue Bc alpha)) else alpha)
                   (if neg32 (fst (childValue Bc alpha)) >? alpha
                    then Some (mkMove i j) else moveMade)
                   (delete c h3)) as (h' & Hrest & Hp').
      { rewrite Hpd; [assumption | now exists P]. }
      exists h'. split; [assumption |].
      now apply (preserved_trans h (delete c h3) h').
Qed.

Lemma negamax_value this depth P :
  forall board playingSide alpha beta (h : gmap loc Board.t) B,
    h !! board = Some B -> h !! Player.board this = Some P ->
    exists h',
      Player.negamax this board playingSide depth alpha beta h =
        Some (negamaxValue (Player.side this) P B playingSide depth alpha beta, h') /\
      preserved h h'.
Proof.
  induction depth as [| depth' IH]; intros board playingSide alpha beta h B HB Hown.
  - exists h. split; [| apply preserved_refl].
    apply (negamax_leaf this board playingSide 0 alpha beta h B HB). now left.
  - cbn [negamaxValue]. destruct (Board.hasMoves B playingSide) eqn:Hmoves; cbn [negb].
    + rewrite (negamax_node this board playingSide depth' alpha beta h B HB Hmoves).
      apply (scan_value this playingSide beta _
               (fun childBoard alpha =>
                  negamaxValue (Player.side this) P childBoard
                    match playingSide with WHITE => BLACK | BLACK => WHITE end
                    depth' (neg32 beta) (neg32 alpha)) P); [| assumption].
      intros c a h1 Bc Hc Hown1. unfold Player.recurse. now apply IH.
    + exists h. split; [| apply preserved_refl].
      apply (negamax_leaf this board playingSide (S depth') alpha beta h B HB). now right.
Qed.

(** X9.  The answer of the search depends on the side of the player and on
    the values of the two boards only: not on their addresses, nor on
    what else the heap holds. *)
Theorem negamax_depends_on_values (this1 this2 : Player.t) (board1 board2 : loc)
    (playingSide : Side) (depth : nat) (alpha beta : Z)
    (h1 h2 : gmap loc Board.t) (B P : Board.t) :
  Player.side this1 = Player.side this2 ->
  h1 !! board1 = Some B -> h2 !! board2 = Some B ->
  h1 !! Player.board this1 = Some P -> h2 !! Player.board this2 = Some P ->
  exists r h1' h2',
    Player.negamax this1 board1 playingSide depth alpha beta h1 = Some (r, h1') /\
    Player.negamax this2 board2 playingSide depth alpha beta h2 = Some (r, h2').
Proof.
  intros Hside HB1 HB2 HP1 HP2.
  destruct (negamax_value this1 depth P board1 playingSide alpha beta h1 B HB1 HP1)
    as (h1' & Hrun1 & _).
  destruct (negamax_value this2 depth P board2 playingSide alpha beta h2 B HB2 HP2)
    as (h2' & Hrun2 & _).
  rewrite <- Hside in Hrun2. eauto.
Qed.

Lemma scanValue_window P playingSide beta child sqs :
  forall alpha moveMade,
    alpha <= beta ->
    alpha <= fst (scanValue P playingSide beta child sqs alpha moveMade) <= beta.
Proof.
  induction sqs as [| [i j] rest IH]; intros alpha moveMade Hab; cbn [scanValue].
  - cbn [fst]. lia.
  - destruct (Board.checkMove P (Some (mkMove i j)) playingSide); [| now apply IH].
    cbv zeta.
    set (boardScore := neg32 (fst (child (Board.doMove P (Some (mkMove i j)) playingSide) alpha))).
    destruct (Z.gtb_spec boardScore beta) as [Hcut | Hnocut]; [cbn [fst]; lia |].
    destruct (Z.gtb_spec boardScore alpha) as [Hup | Hkeep].
    + specialize (IH boardScore (Some (mkMove i j)) ltac:(lia)). lia.
    + now apply IH.
Qed.

Lemma scanValue_move P playingSide beta child sqs :
  forall alpha moveMade,
    let mv := snd (scanValue P playingSide beta child sqs alpha moveMade) in
    mv = moveMade \/
    exists i j, mv = Some (mkMove i j) /\ In (i, j) sqs /\
                Board.checkMove P (Some (mkMove i j)) playingSide = true.
Proof.
  induction sqs as [| [i j] rest IH]; intros alpha moveMade; cbn [scanValue].
  - now left.
  - destruct (Board.checkMove P (Some (mkMove i j)) playingSide) eqn:Hlegal.
    + cbv zeta.
      set (boardScore := neg32 (fst (child (Board.doMove P (Some (mkMove i j)) playingSide) alpha))).
      destruct (boardScore >? beta).
      * right. exists i, j. cbn [snd]. split; [reflexivity |]. split; [now left | assumption].
      * destruct (IH (if boardScore >? alpha then boardScore else alpha)
                     (if boardScore >? alpha then Some (mkMove i j) else moveMade))
          as [Hsame | (i' & j' & Hmv & Hin & Hok)].
        -- cbv zeta in Hsame. rewrite Hsame.
           destruct (boardScore >? alpha); [| now left].
           right. exists i, j. split; [reflexivity |]. split; [now left | assumption].
        -- right. exists i', j'. split; [assumption |]. split; [now right | assumption].
    + destruct (IH alpha moveMade) as [Hsame | (i' & j' & Hmv & Hin & Hok)];
        [now left |].
      right. exists i', j'. split; [assumption |]. split; [now right | assumption].
Qed.

Lemma negamaxValue_leaf rootSide P B playingSide depth alpha beta :
  depth = O \/ Board.hasMoves B playingSide = false ->
  negamaxValue rootSide P B playingSide depth alpha beta =
  (Board.getScore B rootSide true, None).
Proof.
  intros [-> | Hnone]; [reflexivity |].
  destruct depth; [reflexivity |]. cbn [negamaxValue]. now rewrite Hnone.
Qed.

Lemma negamaxValue_node rootSide P B playingSide depth' alpha beta :
  Board.hasMoves B playingSide = true ->
  negamaxValue rootSide P B playingSide (S depth') alpha beta =
  scanValue P playingSide beta
    (fun childBoard alpha =>
       negamaxValue rootSide P childBoard
         match playingSide with WHITE => BLACK | BLACK => WHITE end
         depth' (neg32 beta) (neg32 alpha))
    Board.squares alpha None.
Proof. intros Hmoves. cbn [negamaxValue]. now rewrite Hmoves. Qed.

(** X10.  At a node (plies left, and a move on the board it was called on)
    with [alpha <= beta], the score returned lies between [alpha] and
    [beta]. *)
Theorem negamax_fail_hard (this : Player.t) (board : loc) (playingSide : Side)
    (depth' : nat) (alpha beta : Z) (h : gmap loc Board.t) (B P : Board.t) :
  h !! board = Some B ->
  h !! Player.board this = Some P ->
  Board.hasMoves B playingSide = true ->
  alpha <= beta ->
  exists r h',
    Player.negamax this board playingSide (S depth') alpha beta h = Some (r, h') /\
    alpha <= fst r <= beta.
Proof.
  intros HB HP Hmoves Hab.
  destruct (negamax_value this (S depth') P board playingSide alpha beta h B HB HP)
    as (h' & Hrun & _).
  eexists _, h'. split; [exact Hrun |].
  rewrite (negamaxValue_node _ _ _ _ _ _ _ Hmoves).
  now apply scanValue_window.
Qed.

(** X11.  The move the search returns, if any, is on the board and legal
    for the side to move on the player's own board; a leaf returns none. *)
Theorem negamax_move_legal (this : Player.t) (board : loc) (playingSide : Side)
    (depth : nat) (alpha beta : Z) (h : gmap loc Board.t) (B P : Board.t) :
  h !! board = Some B ->
  h !! Player.board this = Some P ->
  exists r h',
    Player.negamax this board playingSide depth alpha beta h = Some (r, h') /\
    forall m, snd r = Some m ->
      Board.onBoard (getX m) (getY m) = true /\
      Board.checkMove P (Some m) playingSide = true /\
      depth <> O /\ Board.hasMoves B playingSide = true.
Proof.
  intros HB HP.
  destruct (negamax_value this depth P board playingSide alpha beta h B HB HP)
    as (h' & Hrun & _).
  eexists _, h'. split; [exact Hrun |].
  intros m Hm.
  destruct depth as [| depth'].
  { rewrite negamaxValue_leaf in Hm by now left. discriminate. }
  destruct (Board.hasMoves B playingSide) eqn:Hmoves.
  2: { rewrite negamaxValue_leaf in Hm by now right. discriminate. }
  rewrite (negamaxValue_node _ _ _ _ _ _ _ Hmoves) in Hm.
  match type of Hm with
  | snd (scanValue ?P ?s ?b ?c ?l ?a ?mm) = _ =>
      destruct (scanValue_move P s b c l a mm) as [Hnone | (i & j & Hmv & Hin & Hok)]
  end.
  - cbv zeta in Hnone. congruence.
  - cbv zeta in Hmv. rewrite Hmv in Hm. inversion Hm; subst m. cbn [getX getY].
    split; [now apply squares_spec |]. split; [assumption |]. split; [discriminate | reflexivity].
Qed.

(** ** The root window *)

Lemma neg32_exact z : INT_MIN < z <= INT_MAX -> neg32 z = - z.
Proof.
  unfold neg32, wrap32, INT_MIN, INT_MAX. intros Hz.
  rewrite Z.mod_small by lia. lia.
Qed.

Lemma getScore_range b side testingMinimax :
  -192 <= Board.getScore b side testingMinimax <= 192.
Proof.
  pose proof (count_bounds (Board.taken b)) as Ht.
  pose proof (count_bounds (Board.black b)) as Hb.
  unfold Board.getScore. destruct testingMinimax.
  - unfold Board.countBlack, Board.countWhite. destruct (isBLACK side); lia.
  - pose proof (weighted_sum_bounds b side Board.squares 0) as H.
    rewrite squares_length in H. lia.
Qed.

Lemma INT_values : INT_MIN = -2147483648 /\ INT_MAX = 2147483647.
Proof. split; reflexivity. Qed.

Section RootWindow.

Variables (rootSide : Side) (P : Board.t) (side : Side).
Hypothesis Hmoves : Board.hasMoves P side = true.

(** The loop on the squares of the side that has a move on [P], when
    every child answers strictly below [INT_MAX]. *)
Lemma scanValue_own beta child sqs :
  - INT_MAX < beta <= INT_MAX ->
  (forall Bc a, - INT_MAX <= a <= INT_MAX ->
                - INT_MAX <= fst (child Bc a) < INT_MAX) ->
  forall alpha moveMade,
    - INT_MAX <= alpha <= INT_MAX ->
    let r := scanValue P side beta child sqs alpha moveMade in
    - INT_MAX <= fst r <= INT_MAX /\
    (- INT_MAX < alpha \/
     (exists i j, In (i, j) sqs /\ Board.checkMove P (Some (mkMove i j)) side = true) ->
     - INT_MAX < fst r) /\
    (moveMade <> None \/
     (alpha = - INT_MAX /\
      exists i j, In (i, j) sqs /\ Board.checkMove P (Some (mkMove i j)) side = true) ->
     snd r <> None).
Proof.
  destruct INT_values as [Hmin Hmax].
  intros Hbeta Hchild. induction sqs as [| [i j] rest IH]; intros alpha moveMade Halpha;
    cbn [scanValue].
  - cbn [fst snd]. split; [lia |]. split.
    + intros [H | (i & j & [] & _)]. lia.
    + intros [H | (_ & i & j & [] & _)]. exact H.
  - destruct (Board.checkMove P (Some (mkMove i j)) side) eqn:Hlegal.
    + cbv zeta.
      pose proof (Hchild (Board.doMove P (Some (mkMove i j)) side) alpha Halpha) as Hc.
      set (c := fst (child (Board.doMove P (Some (mkMove i j)) side) alpha)) in *.
      rewrite (neg32_exact c) by lia.
      destruct (Z.gtb_spec (- c) beta) as [Hcut | Hnocut].
      * cbn [fst snd]. split; [lia |]. split; [intros _; lia | intros _; discriminate].
      * destruct (Z.gtb_spec (- c) alpha) as [Hup | Hkeep].
        -- destruct (IH (- c) (Some (mkMove i j)) ltac:(lia)) as (Hr & Hlow & Hmv).
           split; [exact Hr |]. split.
           ++ intros _. apply Hlow. left. lia.
           ++ intros _. apply Hmv. left. discriminate.
        -- destruct (IH alpha moveMade Halpha) as (Hr & Hlow & Hmv).
           split; [exact Hr |]. split.
           ++ intros _. apply Hlow. left. lia.
           ++ intros [Hsome | [Heq _]]; [apply Hmv; now left | lia].
    + destruct (IH alpha moveMade Halpha) as (Hr & Hlow & Hmv).
      split; [exact Hr |]. split.
      * intros [Ha | (i' & j' & [Heq | Hin] & Hok)].
        -- apply Hlow. now left.
        -- inversion Heq; subst. congruence.
        -- apply Hlow. right. now exists i', j'.
      * intros [Hsome | (Ha & i' & j' & [Heq | Hin] & Hok)].
        -- apply Hmv. now left.
        -- inversion Heq; subst. congruence.
        -- apply Hmv. right. split; [assumption |]. now exists i', j'.
Qed.

(** The loop of the other side, when every child answers strictly above
    [- INT_MAX]. *)
Lemma scanValue_other playingSide beta child sqs :
  - INT_MAX <= beta <= INT_MAX ->
  (forall Bc a, - INT_MAX <= a < INT_MAX ->
                - INT_MAX < fst (child Bc a) <= INT_MAX) ->
  forall alpha moveMade,
    - INT_MAX <= alpha < INT_MAX ->
    - INT_MAX <= fst (scanValue P playingSide beta child sqs alpha moveMade) < INT_MAX.
Proof.
  destruct INT_values as [Hmin Hmax].
  intros Hbeta Hchild. induction sqs as [| [i j] rest IH]; intros alpha moveMade Halpha;
    cbn [scanValue].
  - cbn [fst]. lia.
  - destruct (Board.checkMove P (Some (mkMove i j)) playingSide); [| now apply IH].
    cbv zeta.
    pose proof (Hchild (Board.doMove P (Some (mkMove i j)) playingSide) alpha Halpha) as Hc.
    set (c := fst (child (Board.doMove P (Some (mkMove i j)) playingSide) alpha)) in *.
    rewrite (neg32_exact c) by lia.
    destruct (Z.gtb_spec (- c) beta) as [Hcut | Hnocut]; [cbn [fst]; lia |].
    destruct (Z.gtb_spec (- c) alpha) as [Hup | Hkeep].
    + apply IH. lia.
    + now apply IH.
Qed.

Lemma hasMoves_square :
  exists i j, In (i, j) Board.squares /\ Board.checkMove P (Some (mkMove i j)) side = true.
Proof.
  unfold Board.hasMoves in Hmoves. apply existsb_exists in Hmoves as ([i j] & Hin & Hok).
  now exists i, j.
Qed.

Lemma negamaxValue_root_window depth :
  (forall B alpha beta,
      - INT_MAX <= alpha <= INT_MAX -> - INT_MAX < beta <= INT_MAX ->
      let r := negamaxValue rootSide P B side depth alpha beta in
      - INT_MAX < fst r <= INT_MAX /\
      (depth <> O -> Board.hasMoves B side = true -> alpha = - INT_MAX -> snd r <> None)) /\
  (forall B alpha beta,
      - INT_MAX <= alpha < INT_MAX -> - INT_MAX <= beta <= INT_MAX ->
      - INT_MAX <= fst (negamaxValue rootSide P B (otherSide side) depth alpha beta) < INT_MAX).
Proof.
  destruct INT_values as [Hmin Hmax].
  induction depth as [| depth' [IHown IHother]].
  - split; intros B alpha beta Ha Hb; cbn [negamaxValue fst snd].
    + pose proof (getScore_range B rootSide true). split; [lia | intros Hne; now destruct Hne].
    + pose proof (getScore_range B rootSide true). lia.
  - split; intros B alpha beta Ha Hb; cbn [negamaxValue].
    + destruct (Board.hasMoves B side) eqn:HB; cbn [negb].
      * destruct (scanValue_own beta
                    (fun childBoard alpha0 =>
                       negamaxValue rootSide P childBoard
                         match side with WHITE => BLACK | BLACK => WHITE end
                         depth' (neg32 beta) (neg32 alpha0))
                    Board.squares Hb) with (alpha := alpha) (moveMade := @None Move)
          as (Hr & Hlow & Hmv); [| assumption |].
        { intros Bc a Hrange.
          replace (match side with WHITE => BLACK | BLACK => WHITE end)
            with (otherSide side) by now destruct side.
          rewrite (neg32_exact beta), (neg32_exact a) by lia.
          apply IHother; lia. }
        cbv zeta in Hr, Hlow, Hmv. split.
        -- split; [| lia]. apply Hlow. right. apply hasMoves_square.
        -- intros _ _ Halpha. apply Hmv. right. split; [assumption | apply hasMoves_square].
      * cbn [fst snd]. pose proof (getScore_range B rootSide true).
        split; [lia | intros _ Habs; discriminate].
    + destruct (Board.hasMoves B (otherSide side)) eqn:HB; cbn [negb].
      * apply scanValue_other; [assumption | | assumption].
        intros Bc a Hrange.
        replace (match otherSide side with WHITE => BLACK | BLACK => WHITE end)
          with side by now destruct side.
        rewrite (neg32_exact beta), (neg32_exact a) by lia.
        apply IHown; lia.
      * cbn [fst]. pose proof (getScore_range B rootSide true). lia.
Qed.

End RootWindow.

Lemma negamaxValue_move rootSide P B playingSide depth alpha beta m :
  snd (negamaxValue rootSide P B playingSide depth alpha beta) = Some m ->
  Board.onBoard (getX m) (getY m) = true /\
  Board.checkMove P (Some m) playingSide = true.
Proof.
  intros Hm.
  destruct depth as [| depth'].
  { rewrite negamaxValue_leaf in Hm by now left. discriminate. }
  destruct (Board.hasMoves B playingSide) eqn:Hmoves.
  2: { rewrite negamaxValue_leaf in Hm by now right. discriminate. }
  rewrite (negamaxValue_node _ _ _ _ _ _ _ Hmoves) in Hm.
  match type of Hm with
  | snd (scanValue ?P ?s ?b ?c ?l ?a ?mm) = _ =>
      destruct (scanValue_move P s b c l a mm) as [Hnone | (i & j & Hmv & Hin & Hok)]
  end.
  - cbv zeta in Hnone. congruence.
  - cbv zeta in Hmv. rewrite Hmv in Hm. inversion Hm; subst m. cbn [getX getY].
    split; [now apply squares_spec | assumption].
Qed.

(** X12.  [Player::doMove] applies the opponent's move, then answers
    [nullptr] exactly when its side has no move on its board, and
    otherwise a legal move of that board, which it plays on its board. *)
Theorem doMove_answers (this : Player.t) (opponentsMove : option Move) (msLeft : Z)
    (h : gmap loc Board.t) (P : Board.t) :
  h !! Player.board this = Some P ->
  let P1 := Board.doMove P opponentsMove (otherSide (Player.side this)) in
  exists nextMove h',
    Player.doMove this opponentsMove msLeft h = Some (nextMove, h') /\
    (nextMove = None <-> Board.hasMoves P1 (Player.side this) = false) /\
    (forall m, nextMove = Some m ->
               Board.onBoard (getX m) (getY m) = true /\
               Board.checkMove P1 (Some m) (Player.side this) = true) /\
    h' !! Player.board this = Some (Board.doMove P1 nextMove (Player.side this)).
Proof.
  intros HP P1. unfold Player.doMove.
  set (h1 := <[Player.board this := P1]> h).
  rewrite (run_bind _ _ h h1 tt) by now apply run_optional_doMove.
  assert (HP1 : h1 !! Player.board this = Some P1) by apply lookup_insert_eq.
  destruct (negamax_value this 7 P1 (Player.board this) (Player.side this)
              (INT_MIN + 1) INT_MAX h1 P1 HP1 HP1) as (h2 & Hrun & Hpres).
  set (r := negamaxValue (Player.side this) P1 P1 (Player.side this) 7 (INT_MIN + 1) INT_MAX)
    in *.
  rewrite (run_bind _ _ h1 h2 r) by assumption. cbv zeta.
  assert (HP2 : h2 !! Player.board this = Some P1)
    by (rewrite Hpres; [assumption | now exists P1]).
  rewrite (run_bind _ _ h2 (<[Player.board this := Board.doMove P1 (snd r) (Player.side this)]> h2) tt)
    by now apply run_optional_doMove.
  exists (snd r), (<[Player.board this := Board.doMove P1 (snd r) (Player.side this)]> h2).
  split; [reflexivity |]. split; [| split].
  - destruct (Board.hasMoves P1 (Player.side this)) eqn:Hmoves.
    + split; [| discriminate]. intros Hnone. exfalso.
      destruct (negamaxValue_root_window (Player.side this) P1 (Player.side this) Hmoves 7)
        as [Hown _].
      destruct INT_values as [Hmin Hmax].
      destruct (Hown P1 (INT_MIN + 1) INT_MAX ltac:(lia) ltac:(lia)) as [_ Hsome].
      apply Hsome; [discriminate | assumption | reflexivity | exact Hnone].
    + split; [reflexivity |]. intros _. unfold r.
      rewrite negamaxValue_leaf by now right. reflexivity.
  - intros m Hm. now apply (negamaxValue_move _ _ _ _ _ _ _ _ Hm).
  - apply lookup_insert_eq.
Qed.

(** ** The minimax player *)

Lemma delete_fresh_insert (h : gmap loc Board.t) c b :
  h !! c = None -> delete c (<[c := b]> h) = h.
Proof.
  intros Hfree. apply map_eq. intros k.
  destruct (decide (k = c)) as [-> | Hne].
  - now rewrite lookup_delete_eq.
  - rewrite lookup_delete_ne, lookup_insert_ne by congruence. reflexivity.
Qed.

(** One turn of a loop of [minimax], when the child call gives the heap
    back as it got it. *)
Lemma scanBest_step better this playingSide child i j rest bestValue moveMade
    (h : gmap loc Board.t) P r :
  h !! Player.board this = Some P ->
  Board.checkMove P (Some (mkMove i j)) playingSide = true ->
  (let c := fresh (dom h) in
   let h2 := <[c := Board.doMove P (Some (mkMove i j)) playingSide]> h in
   child c h2 = Some (r, h2)) ->
  Minimax.scanBest better this playingSide child ((i, j) :: rest) bestValue moveMade h =
  let st := bestAfter better (fst r) (mkMove i j) bestValue moveMade in
  Minimax.scanBest better this playingSide child rest (fst st) (snd st) h.
Proof.
  intros Hown Hlegal Hchild. cbn [Minimax.scanBest].
  unfold BoardPtr.checkMove.
  rewrite (run_bind _ _ h h (Board.checkMove P (Some (mkMove i j)) playingSide)).
  2: { now rewrite (run_bind (load (Player.board this)) _ h h P) by now apply run_load. }
  rewrite Hlegal. pose proof (fresh_free h) as Hfresh. cbv zeta in Hchild.
  set (c := fresh (dom h)) in *.
  rewrite (run_bind _ _ h (<[c := P]> h) c) by now apply run_copy.
  rewrite (run_bind _ _ (<[c := P]> h)
             (<[c := Board.doMove P (Some (mkMove i j)) playingSide]> h) tt).
  2: { rewrite (run_doMove _ c P) by apply lookup_insert_eq.
       now rewrite insert_insert_eq. }
  rewrite (run_bind _ _ _ _ r Hchild).
  unfold bestAfter. cbv zeta.
  destruct moveMade as [mv |]; [destruct (better (fst r) bestValue) |].
  all: rewrite (run_bind (free c) _ _ (delete c (<[c := Board.doMove P (Some (mkMove i j)) playingSide]> h)) tt)
         by (apply (run_free _ c (Board.doMove P (Some (mkMove i j)) playingSide));
             apply lookup_insert_eq).
  all: now rewrite delete_fresh_insert.
Qed.

Lemma scanBest_skip better this playingSide child i j rest bestValue moveMade
    (h : gmap loc Board.t) P :
  h !! Player.board this = Some P ->
  Board.checkMove P (Some (mkMove i j)) playingSide = false ->
  Minimax.scanBest better this playingSide child ((i, j) :: rest) bestValue moveMade h =
  Minimax.scanBest better this playingSide child rest bestValue moveMade h.
Proof.
  intros Hown Hillegal. cbn [Minimax.scanBest].
  unfold BoardPtr.checkMove.
  rewrite (run_bind _ _ h h (Board.checkMove P (Some (mkMove i j)) playingSide)).
  2: { now rewrite (run_bind (load (Player.board this)) _ h h P) by now apply run_load. }
  now rewrite Hillegal.
Qed.

Lemma scanBest_value better this playingSide child childValue P :
  (forall c (h : gmap loc Board.t) Bc,
      h !! c = Some Bc -> h !! Player.board this = Some P ->
      child c h = Some (childValue Bc, h)) ->
  forall sqs bestValue moveMade (h : gmap loc Board.t),
    h !! Player.board this = Some P ->
    Minimax.scanBest better this playingSide child sqs bestValue moveMade h =
    Some (scanBestValue better P playingSide childValue sqs bestValue moveMade, h).
Proof.
  intros Hchild sqs. induction sqs as [| [i j] rest IH]; intros bestValue moveMade h Hown.
  - reflexivity.
  - cbn [scanBestValue].
    destruct (Board.checkMove P (Some (mkMove i j)) playingSide) eqn:Hlegal.
    + rewrite (scanBest_step better this playingSide child i j rest bestValue moveMade h P
                 (childValue (Board.doMove P (Some (mkMove i j)) playingSide)) Hown Hlegal).
      * cbv zeta. now apply IH.
      * cbv zeta. apply Hchild; [apply lookup_insert_eq |].
        rewrite lookup_insert_ne; [assumption |].
        pose proof (fresh_free h). congruence.
    + rewrite (scanBest_skip better this playingSide child i j rest bestValue moveMade h P
                 Hown Hlegal).
      now apply IH.
Qed.

Lemma minimax_value this depth P :
  forall board maximizingPlayer (h : gmap loc Board.t) B,
    h !! board = Some B -> h !! Player.board this = Some P ->
    Minimax.minimax this board depth maximizingPlayer h =
    Some (minimaxValue (Player.side this) (Player.testingMinimax this) P B depth
            maximizingPlayer, h).
Proof.
  induction depth as [| depth' IH]; intros board maximizingPlayer h B HB Hown.
  - cbn [Minimax.minimax minimaxValue]. unfold BoardPtr.getScore.
    rewrite (run_bind _ _ h h (Board.getScore B (Player.side this) (Player.testingMinimax this)));
      [reflexivity |].
    now rewrite (run_bind (load board) _ h h B) by now apply run_load.
  - cbn [Minimax.minimax minimaxValue]. cbv zeta.
    set (playingSide := if maximizingPlayer then Player.side this
                        else otherSide (Player.side this)).
    unfold BoardPtr.hasMoves at 1.
    rewrite (run_bind _ _ h h (Board.hasMoves B playingSide)).
    2: { now rewrite (run_bind (load board) _ h h B) by now apply run_load. }
    destruct (Board.hasMoves B playingSide); cbn [negb].
    + destruct maximizingPlayer.
      * apply (scanBest_value Z.gtb this playingSide _
                 (fun childBoard => minimaxValue (Player.side this)
                    (Player.testingMinimax this) P childBoard depth' false) P); [| assumption].
        intros c h1 Bc Hc Hown1. now apply IH.
      * apply (scanBest_value Z.ltb this playingSide _
                 (fun childBoard => minimaxValue (Player.side this)
                    (Player.testingMinimax this) P childBoard depth' true) P); [| assumption].
        intros c h1 Bc Hc Hown1. now apply IH.
    + unfold BoardPtr.getScore.
      rewrite (run_bind _ _ h h (Board.getScore B (Player.side this) (Player.testingMinimax this)));
        [reflexivity |].
      now rewrite (run_bind (load board) _ h h B) by now apply run_load.
Qed.

Section BestOfLoop.

Variables (better : Z -> Z -> bool) (R : Z -> Z -> Prop).
Hypothesis R_refl : forall a, R a a.
Hypothesis R_trans : forall a b c, R a b -> R b c -> R a c.
Hypothesis better_yes : forall a b, better a b = true -> R a b.
Hypothesis better_no : forall a b, better a b = false -> R b a.

Variables (P : Board.t) (playingSide : Side) (child : Board.t -> Z * option Move).

Lemma scanBestValue_best sqs :
  forall bestValue moveMade,
    let r := scanBestValue better P playingSide child sqs bestValue moveMade in
    (forall i j, In (i, j) sqs ->
                 Board.checkMove P (Some (mkMove i j)) playingSide = true ->
                 R (fst r) (moveScore P playingSide child i j)) /\
    (moveMade <> None -> R (fst r) bestValue) /\
    ((snd r = moveMade /\ fst r = bestValue /\
      (moveMade = None ->
       forall i j, In (i, j) sqs ->
                   Board.checkMove P (Some (mkMove i j)) playingSide = false)) \/
     (exists i j, In (i, j) sqs /\
                  Board.checkMove P (Some (mkMove i j)) playingSide = true /\
                  snd r = Some (mkMove i j) /\
                  fst r = moveScore P playingSide child i j)).
Proof.
  induction sqs as [| [i j] rest IH]; intros bestValue moveMade; cbn [scanBestValue].
  - cbn [fst snd]. split; [intros i j [] |]. split; [intros _; apply R_refl |].
    left. repeat split. intros _ i j [].
  - destruct (Board.checkMove P (Some (mkMove i j)) playingSide) eqn:Hlegal.
    + cbv zeta. fold (moveScore P playingSide child i j).
      set (st := bestAfter better (moveScore P playingSide child i j) (mkMove i j) bestValue moveMade).
      destruct (IH (fst st) (snd st)) as (Hall & Hkeep & Hwhich).
      assert (Hst : snd st <> None /\ R (fst st) (moveScore P playingSide child i j) /\
                    (moveMade <> None -> R (fst st) bestValue) /\
                    ((snd st = Some (mkMove i j) /\ fst st = moveScore P playingSide child i j) \/
                     (snd st = moveMade /\ fst st = bestValue /\ moveMade <> None))).
      { unfold st, bestAfter. destruct moveMade as [m0 |].
        - destruct (better (moveScore P playingSide child i j) bestValue) eqn:Hb; cbn [fst snd].
          + split; [discriminate |]. split; [apply R_refl |].
            split; [intros _; now apply better_yes | now left].
          + split; [discriminate |]. split; [now apply better_no |].
            split; [intros _; apply R_refl |]. right. repeat split. discriminate.
        - cbn [fst snd]. split; [discriminate |]. split; [apply R_refl |].
          split; [intros H; now destruct H | now left]. }
      destruct Hst as (Hsome & Hsc & Hbv & Hcase).
      specialize (Hkeep Hsome).
      split; [| split].
      * intros i' j' [Heq | Hin] Hok.
        -- inversion Heq; subst i' j'. now apply (R_trans _ (fst st)).
        -- now apply Hall.
      * intros Hmm. apply (R_trans _ (fst st)); [assumption | now apply Hbv].
      * destruct Hwhich as [(Hmv & Hv & _) | (i' & j' & Hin & Hok & Hmv & Hv)].
        -- destruct Hcase as [[Hs1 Hs2] | (Hs1 & Hs2 & Hs3)].
           ++ right. exists i, j. split; [now left |]. split; [assumption |].
              split; congruence.
           ++ left. split; [congruence |]. split; [congruence |].
              intros Hnone. contradiction.
        -- right. exists i', j'. split; [now right |]. auto.
    + destruct (IH bestValue moveMade) as (Hall & Hkeep & Hwhich).
      split; [| split; [assumption |]].
      * intros i' j' [Heq | Hin] Hok.
        -- inversion Heq; subst i' j'. congruence.
        -- now apply Hall.
      * destruct Hwhich as [(Hmv & Hv & Hnone) | (i' & j' & Hin & Hok & Hmv & Hv)].
        -- left. split; [assumption |]. split; [assumption |].
           intros Hmm i' j' [Heq | Hin]; [inversion Heq; subst; assumption | now apply Hnone].
        -- right. exists i', j'. split; [now right |]. auto.
Qed.

End BestOfLoop.

(** X14.  [minimax] returns with the heap exactly as it found it (every copy
    it makes it deletes), and at depth 0 or without a move for the side it
    returns the score of the board it was called on, with no move. *)
Theorem minimax_restores_heap (this : Player.t) (board : loc) (depth : nat)
    (maximizingPlayer : bool) (h : gmap loc Board.t) (B P : Board.t) :
  h !! board = Some B ->
  h !! Player.board this = Some P ->
  exists r,
    Minimax.minimax this board depth maximizingPlayer h = Some (r, h) /\
    (depth = O \/
     Board.hasMoves B (if maximizingPlayer then Player.side this
                       else otherSide (Player.side this)) = false ->
     r = (Board.getScore B (Player.side this) (Player.testingMinimax this), None)).
Proof.
  intros HB HP. eexists.
  split; [exact (minimax_value this depth P board maximizingPlayer h B HB HP) |].
  intros [-> | Hnone]; [reflexivity |].
  destruct depth; [reflexivity |]. cbn [minimaxValue]. cbv zeta. now rewrite Hnone.
Qed.

Lemma minimaxValue_node rootSide tm P B depth' (maximizingPlayer : bool) :
  Board.hasMoves B (if maximizingPlayer then rootSide else otherSide rootSide) = true ->
  minimaxValue rootSide tm P B (S depth') maximizingPlayer =
  scanBestValue (if maximizingPlayer return Z -> Z -> bool then Z.gtb else Z.ltb) P
    (if maximizingPlayer then rootSide else otherSide rootSide)
    (fun childBoard => minimaxValue rootSide tm P childBoard depth' (negb maximizingPlayer))
    Board.squares 0 None.
Proof.
  intros Hmoves. cbn [minimaxValue]. cbv zeta. rewrite Hmoves.
  now destruct maximizingPlayer.
Qed.

(** X15.  At a node, [minimax] returns the best of the values of the moves
    legal on the player's own board (the greatest for the maximizing
    player, the least for the other) with a move that has that value; it
    returns 0 and no move only when that board has no legal move. *)
Theorem minimax_node_best (this : Player.t) (board : loc) (depth' : nat)
    (maximizingPlayer : bool) (h : gmap loc Board.t) (B P : Board.t) :
  let playingSide :=
    if maximizingPlayer then Player.side this else otherSide (Player.side this) in
  let childValue (i j : Z) (v : Z) : Prop :=
    forall (hc : gmap loc Board.t) c,
      hc !! c = Some (Board.doMove P (Some (mkMove i j)) playingSide) ->
      hc !! Player.board this = Some P ->
      exists rc, Minimax.minimax this c depth' (negb maximizingPlayer) hc = Some (rc, hc) /\
                 fst rc = v in
  h !! board = Some B ->
  h !! Player.board this = Some P ->
  Board.hasMoves B playingSide = true ->
  exists r,
    Minimax.minimax this board (S depth') maximizingPlayer h = Some (r, h) /\
    (forall i j, Board.onBoard i j = true ->
                 Board.checkMove P (Some (mkMove i j)) playingSide = true ->
                 exists v, childValue i j v /\
                           if maximizingPlayer then v <= fst r else fst r <= v) /\
    (forall m, snd r = Some m ->
               Board.onBoard (getX m) (getY m) = true /\
               Board.checkMove P (Some m) playingSide = true /\
               childValue (getX m) (getY m) (fst r)) /\
    (snd r = None ->
     fst r = 0 /\
     forall i j, Board.onBoard i j = true ->
                 Board.checkMove P (Some (mkMove i j)) playingSide = false).
Proof.
  intros playingSide childValue HB HP Hmoves.
  eexists. split; [exact (minimax_value this (S depth') P board maximizingPlayer h B HB HP) |].
  rewrite (minimaxValue_node _ _ _ _ _ _ Hmoves). fold playingSide.
  set (cv := fun childBoard => minimaxValue (Player.side this) (Player.testingMinimax this)
                                 P childBoard depth' (negb maximizingPlayer)).
  assert (Hcv : forall i j,
            childValue i j (fst (cv (Board.doMove P (Some (mkMove i j)) playingSide)))).
  { intros i j hc c Hc Hown. eexists. split; [| reflexivity].
    exact (minimax_value this depth' P c (negb maximizingPlayer) hc _ Hc Hown). }
  set (R := fun a b : Z => if maximizingPlayer then b <= a else a <= b).
  destruct (scanBestValue_best (if maximizingPlayer return Z -> Z -> bool then Z.gtb else Z.ltb) R
              ltac:(intros a; unfold R; destruct maximizingPlayer; lia)
              ltac:(intros a b c; unfold R; destruct maximizingPlayer; lia)
              ltac:(intros a b; unfold R; destruct maximizingPlayer;
                    [rewrite Z.gtb_ltb | ]; intros Hb%Z.ltb_lt; lia)
              ltac:(intros a b; unfold R; destruct maximizingPlayer;
                    [rewrite Z.gtb_ltb | ]; intros Hb%Z.ltb_ge; lia)
              P playingSide cv Board.squares 0 None) as (Hall & _ & Hwhich).
  cbv zeta in Hall, Hwhich.
  split; [| split].
  - intros i j Hon Hok. eexists. split; [apply Hcv |].
    specialize (Hall i j ltac:(now apply squares_spec) Hok). unfold R in Hall.
    destruct maximizingPlayer; exact Hall.
  - intros m Hm.
    destruct Hwhich as [(Hmv & _) | (i & j & Hin & Hok & Hmv & Hv)]; [congruence |].
    rewrite Hmv in Hm. inversion Hm; subst m. cbn [getX getY].
    split; [now apply squares_spec |]. split; [assumption |].
    rewrite Hv. apply Hcv.
  - intros Hnone.
    destruct Hwhich as [(_ & Hv & Hno) | (i & j & _ & _ & Hmv & _)]; [| congruence].
    split; [assumption |]. intros i j Hon. apply Hno; [reflexivity | now apply squares_spec].
Qed.

Lemma minimaxValue_move rootSide tm P B depth maximizingPlayer :
  let playingSide := if maximizingPlayer : bool then rootSide else otherSide rootSide in
  let r := minimaxValue rootSide tm P B depth maximizingPlayer in
  (forall m, snd r = Some m ->
             Board.onBoard (getX m) (getY m) = true /\
             Board.checkMove P (Some m) playingSide = true) /\
  (depth <> O -> Board.hasMoves B playingSide = true ->
   Board.hasMoves P playingSide = true -> snd r <> None).
Proof.
  intros playingSide r. subst r.
  destruct depth as [| depth'].
  { split; [intros m Hm; discriminate | intros Hne; now destruct Hne]. }
  destruct (Board.hasMoves B playingSide) eqn:Hmoves.
  2: { cbn [minimaxValue]. cbv zeta. fold playingSide. rewrite Hmoves.
       split; [intros m Hm; discriminate | intros _ Habs; discriminate]. }
  rewrite (minimaxValue_node _ _ _ _ _ _ Hmoves). fold playingSide.
  set (R := fun a b : Z => if maximizingPlayer then b <= a else a <= b).
  destruct (scanBestValue_best (if maximizingPlayer return Z -> Z -> bool then Z.gtb else Z.ltb) R
              ltac:(intros a; unfold R; destruct maximizingPlayer; lia)
              ltac:(intros a b c; unfold R; destruct maximizingPlayer; lia)
              ltac:(intros a b; unfold R; destruct maximizingPlayer;
                    [rewrite Z.gtb_ltb | ]; intros Hb%Z.ltb_lt; lia)
              ltac:(intros a b; unfold R; destruct maximizingPlayer;
                    [rewrite Z.gtb_ltb | ]; intros Hb%Z.ltb_ge; lia)
              P playingSide
              (fun childBoard => minimaxValue rootSide tm P childBoard depth'
                                   (negb maximizingPlayer))
              Board.squares 0 None) as (_ & _ & Hwhich).
  cbv zeta in Hwhich.
  split.
  - intros m Hm.
    destruct Hwhich as [(Hmv & _) | (i & j & Hin & Hok & Hmv & _)]; [congruence |].
    rewrite Hmv in Hm. inversion Hm; subst m. cbn [getX getY].
    split; [now apply squares_spec | assumption].
  - intros _ _ HP Hnone.
    destruct Hwhich as [(_ & _ & Hno) | (i & j & _ & _ & Hmv & _)]; [| congruence].
    unfold Board.hasMoves in HP. apply existsb_exists in HP as ([i j] & Hin & Hok).
    cbn [fst snd] in Hok.
    change (Board.checkSquare P i j playingSide)
      with (Board.checkMove P (Some (mkMove i j)) playingSide) in Hok.
    rewrite (Hno eq_refl i j Hin) in Hok. discriminate.
Qed.

(** X16.  [Player::doMove] of the minimax player answers [nullptr] exactly
    when its side has no move on its board after the opponent's move, and
    otherwise a legal move of that board; the heap it leaves differs from
    the one it got only in that board, which holds both moves. *)
Theorem minimax_doMove_answers (this : Player.t) (opponentsMove : option Move)
    (msLeft : Z) (h : gmap loc Board.t) (P : Board.t) :
  h !! Player.board this = Some P ->
  let P1 := Board.doMove P opponentsMove (otherSide (Player.side this)) in
  exists nextMove,
    Minimax.doMove this opponentsMove msLeft h =
      Some (nextMove,
            <[Player.board this := Board.doMove P1 nextMove (Player.side this)]> h) /\
    (nextMove = None <-> Board.hasMoves P1 (Player.side this) = false) /\
    (forall m, nextMove = Some m ->
               Board.onBoard (getX m) (getY m) = true /\
               Board.checkMove P1 (Some m) (Player.side this) = true).
Proof.
  intros HP P1. unfold Minimax.doMove.
  set (h1 := <[Player.board this := P1]> h).
  rewrite (run_bind _ _ h h1 tt) by now apply run_optional_doMove.
  assert (HP1 : h1 !! Player.board this = Some P1) by apply lookup_insert_eq.
  rewrite (run_bind _ _ h1 h1 _ (minimax_value this 2 P1 (Player.board this) true h1 P1 HP1 HP1)).
  set (r := minimaxValue (Player.side this) (Player.testingMinimax this) P1 P1 2 true).
  cbv zeta.
  rewrite (run_bind _ _ h1 (<[Player.board this := Board.doMove P1 (snd r) (Player.side this)]> h1) tt)
    by now apply run_optional_doMove.
  destruct (minimaxValue_move (Player.side this) (Player.testingMinimax this) P1 P1 2 true)
    as [Hlegal Hsome].
  cbv zeta in Hlegal, Hsome. fold r in Hlegal, Hsome.
  exists (snd r). split; [| split].
  - unfold h1. now rewrite insert_insert_eq.
  - destruct (Board.hasMoves P1 (Player.side this)) eqn:Hmoves.
    + split; [| discriminate]. intros Hnone. exfalso.
      now apply Hsome.
    + split; [reflexivity |]. intros _. unfold r. cbn [minimaxValue]. cbv zeta.
      now rewrite Hmoves.
  - exact Hlegal.
Qed.

(** ** Passes, symmetry, and more concrete runs *)

(** X1.  [hasMoves] answers whether some square of the board is a move that
    [checkMove] accepts, and a pass ([nullptr]) is accepted exactly when
    no square of the board is. *)
Theorem pass_iff_no_move (b : Board.t) (side : Side) :
  (Board.hasMoves b side = true <->
   exists x y, Board.onBoard x y = true /\
               Board.checkMove b (Some (mkMove x y)) side = true) /\
  (Board.checkMove b None side = true <->
   forall x y, Board.onBoard x y = true ->
               Board.checkMove b (Some (mkMove x y)) side = false).
Proof.
  split; [apply hasMoves_iff |].
  change (Board.checkMove b None side) with (negb (Board.hasMoves b side)).
  rewrite negb_true_iff. split.
  - intros Hnone x y Hon.
    destruct (Board.checkMove b (Some (mkMove x y)) side) eqn:Hc; [| reflexivity].
    rewrite <- Hnone. symmetry. apply hasMoves_iff. now exists x, y.
  - intros Hall. destruct (Board.hasMoves b side) eqn:Hm; [| reflexivity].
    apply hasMoves_iff in Hm as (x & y & Hon & Hok). rewrite (Hall x y Hon) in Hok.
    discriminate.
Qed.

(** X8.  The class of a square is the same for its mirror images in either
    axis and for its transpose. *)
Theorem getSquarePosition_symmetric (x y : Z) :
  Board.getSquarePosition (7 - x) y = Board.getSquarePosition x y /\
  Board.getSquarePosition x (7 - y) = Board.getSquarePosition x y /\
  Board.getSquarePosition y x = Board.getSquarePosition x y.
Proof.
  unfold Board.getSquarePosition, BOARD_SIZE.
  change (8 - 1) with 7. change (8 - 2) with 6.
  coordinate_cases x; coordinate_cases y;
    repeat match goal with
           | |- context [?a =? ?b] =>
               lazymatch a with
               | context [7 - _] => idtac
               end;
               let H := fresh in
               destruct (Z.eqb_spec a b) as [H | H]; try lia
           end;
    decide_eqb; repeat split; reflexivity.
Qed.

(** X13.  With plies left, the search gives the same result on any two
    boards on which the side has a move: it expands the player's own
    board whatever board it was called on. *)
Theorem negamax_node_ignores_argument (this : Player.t) (board1 board2 : loc)
    (playingSide : Side) (depth' : nat) (alpha beta : Z)
    (h : gmap loc Board.t) (B1 B2 : Board.t) :
  h !! board1 = Some B1 -> h !! board2 = Some B2 ->
  Board.hasMoves B1 playingSide = true ->
  Board.hasMoves B2 playingSide = true ->
  Player.negamax this board1 playingSide (S depth') alpha beta h =
  Player.negamax this board2 playingSide (S depth') alpha beta h.
Proof.
  intros H1 H2 Hm1 Hm2.
  rewrite (negamax_node this board1 playingSide depth' alpha beta h B1 H1 Hm1).
  now rewrite (negamax_node this board2 playingSide depth' alpha beta h B2 H2 Hm2).
Qed.

Lemma isDone_no_move_witness :
  Board.checkMove emptyBoard None WHITE = true /\
  forall x y, Board.onBoard x y = true ->
              Board.checkMove emptyBoard (Some (mkMove x y)) WHITE = false /\
              Board.doMove emptyBoard (Some (mkMove x y)) WHITE = emptyBoard.
Proof.
  apply (fun Hdone => isDone_no_move emptyBoard Hdone WHITE). vm_compute. reflexivity.
Defined.

Lemma setBoard_reads_back_witness :
  let c := nth (Z.to_nat (0 + 8 * 0)) allBlack " "%char in
  let b' := Board.setBoard Board.new allBlack in
  Board.get b' BLACK 0 0 = Ascii.eqb c "b"%char /\
  Board.get b' WHITE 0 0 = Ascii.eqb c "w"%char /\
  Board.occupied b' 0 0 = Ascii.eqb c "b"%char || Ascii.eqb c "w"%char.
Proof.
  apply (setBoard_reads_back Board.new allBlack 0 0).
  - simpl. lia.
  - reflexivity.
Defined.

Lemma negamax_depends_on_values_witness :
  exists r h1' h2',
    Player.negamax blackPlayer 2%positive WHITE 2 (INT_MIN + 1) INT_MAX twoBoards =
      Some (r, h1') /\
    Player.negamax otherBlackPlayer 7%positive WHITE 2 (INT_MIN + 1) INT_MAX
      twoBoardsElsewhere = Some (r, h2').
Proof.
  apply (negamax_depends_on_values blackPlayer otherBlackPlayer 2%positive 7%positive
           WHITE 2 (INT_MIN + 1) INT_MAX twoBoards twoBoardsElsewhere
           afterOneMove Board.new); reflexivity.
Defined.

Lemma negamax_fail_hard_witness :
  exists r h',
    Player.negamax blackPlayer 1%positive BLACK 2 (-1) 1 twoBoards = Some (r, h') /\
    -1 <= fst r <= 1.
Proof.
  apply (negamax_fail_hard blackPlayer 1%positive BLACK 1 (-1) 1 twoBoards
           Board.new Board.new).
  - reflexivity.
  - reflexivity.
  - vm_compute. reflexivity.
  - lia.
Defined.

Lemma negamax_move_legal_witness :
  exists r h',
    Player.negamax blackPlayer 2%positive WHITE 2 (INT_MIN + 1) INT_MAX twoBoards =
      Some (r, h') /\
    forall m, snd r = Some m ->
      Board.onBoard (getX m) (getY m) = true /\
      Board.checkMove Board.new (Some m) WHITE = true /\
      2%nat <> O /\ Board.hasMoves afterOneMove WHITE = true.
Proof.
  apply (negamax_move_legal blackPlayer 2%positive WHITE 2 (INT_MIN + 1) INT_MAX
           twoBoards afterOneMove Board.new); reflexivity.
Defined.

Lemma doMove_answers_witness :
  let P1 := Board.doMove Board.new (Some (mkMove 4 5)) (otherSide (Player.side
              (Player.mk 1%positive WHITE false))) in
  exists nextMove h',
    Player.doMove (Player.mk 1%positive WHITE false) (Some (mkMove 4 5)) 1000 twoBoards =
      Some (nextMove, h') /\
    (nextMove = None <-> Board.hasMoves P1 WHITE = false) /\
    (forall m, nextMove = Some m ->
               Board.onBoard (getX m) (getY m) = true /\
               Board.checkMove P1 (Some m) WHITE = true) /\
    h' !! 1%positive = Some (Board.doMove P1 nextMove WHITE).
Proof.
  apply (doMove_answers (Player.mk 1%positive WHITE false) (Some (mkMove 4 5)) 1000
           twoBoards Board.new).
  reflexivity.
Defined.

Lemma negamax_node_ignores_argument_witness :
  Player.negamax blackPlayer 1%positive WHITE 2 (INT_MIN + 1) INT_MAX twoBoards =
  Player.negamax blackPlayer 2%positive WHITE 2 (INT_MIN + 1) INT_MAX twoBoards.
Proof.
  apply (negamax_node_ignores_argument blackPlayer 1%positive 2%positive WHITE 1
           (INT_MIN + 1) INT_MAX twoBoards Board.new afterOneMove);
    try reflexivity; vm_compute; reflexivity.
Defined.

Lemma minimax_restores_heap_witness :
  exists r,
    Minimax.minimax blackPlayer 2%positive 2 false twoBoards = Some (r, twoBoards) /\
    (2%nat = O \/ Board.hasMoves afterOneMove (otherSide BLACK) = false ->
     r = (Board.getScore afterOneMove BLACK false, None)).
Proof.
  apply (minimax_restores_heap blackPlayer 2%positive 2 false twoBoards
           afterOneMove Board.new); reflexivity.
Defined.

Lemma minimax_node_best_witness :
  let childValue (i j : Z) (v : Z) : Prop :=
    forall (hc : gmap loc Board.t) c,
      hc !! c = Some (Board.doMove Board.new (Some (mkMove i j)) BLACK) ->
      hc !! 1%positive = Some Board.new ->
      exists rc, Minimax.minimax blackPlayer c 1 (negb true) hc = Some (rc, hc) /\
                 fst rc = v in
  exists r,
    Minimax.minimax blackPlayer 1%positive 2 true twoBoards = Some (r, twoBoards) /\
    (forall i j, Board.onBoard i j = true ->
                 Board.checkMove Board.new (Some (mkMove i j)) BLACK = true ->
                 exists v, childValue i j v /\ v <= fst r) /\
    (forall m, snd r = Some m ->
               Board.onBoard (getX m) (getY m) = true /\
               Board.checkMove Board.new (Some m) BLACK = true /\
               childValue (getX m) (getY m) (fst r)) /\
    (snd r = None ->
     fst r = 0 /\
     forall i j, Board.onBoard i j = true ->
                 Board.checkMove Board.new (Some (mkMove i j)) BLACK = false).
Proof.
  apply (minimax_node_best blackPlayer 1%positive 1 true twoBoards Board.new Board.new);
    reflexivity.
Defined.

Lemma minimax_doMove_answers_witness :
  let P1 := Board.doMove Board.new None (otherSide BLACK) in
  exists nextMove,
    Minimax.doMove blackPlayer None 1000 twoBoards =
      Some (nextMove, <[1%positive := Board.doMove P1 nextMove BLACK]> twoBoards) /\
    (nextMove = None <-> Board.hasMoves P1 BLACK = false) /\
    (forall m, nextMove = Some m ->
               Board.onBoard (getX m) (getY m) = true /\
               Board.checkMove P1 (Some m) BLACK = true).
Proof.
  apply (minimax_doMove_answers blackPlayer None 1000 twoBoards Board.new). reflexivity.
Defined.

(** * The node of the search, move by move *)

(** ** The order of the scan *)







(** ** The node of the search, square by square *)




Section Node.

Variables (this : Player.t) (P : Board.t) (playingSide : Side) (depth' : nat) (beta : Z).
Variable h : gmap loc Board.t.
Hypothesis Hown : h !! Player.board this = Some P.
Hypothesis Hbeta : - INT_MAX <= beta <= INT_MAX.





End Node.



(** ** The opening, one ply deep *)





